(** * A 2-3 B+ tree with a doubly linked leaf chain (src/src/main.rs)

    Shallow embedding of [mod btree].  The Rust nodes live behind
    [Rc<RefCell<BTreeNode<T>>>] handles, with strong [children] and
    [next_leaf] links and [Weak] [parent] and [previous_leaf] links.  We
    model the shared store as an arena: a [gmap nat BTreeNode] addressed by
    the handle, plus the counter that hands out fresh handles ([Rc::new]).
    Nodes are never freed in the arena; a node the Rust code drops simply
    becomes unreachable.  Stored values are integers ([T = Z]), as in the
    repository's test.  Code that may panic (an [unwrap] of [None], an index
    out of range, [unreachable!], a leaf access on an internal node through
    the [unchecked] accessors) returns [None] in the model.

    Recursion that follows handles (descent, the walk up the parent links)
    is bounded by an explicit fuel; running out of fuel also yields [None]. *)

From Stdlib Require Import ZArith List Lia Sorted Permutation.
From stdpp Require Import base gmap list.
Import ListNotations.
Open Scope Z_scope.

(** ** Data model *)

Definition MAX_KEYS : nat := 2.
Definition MAX_CHILDREN : nat := 3.

Record BTreeLeaf := mkLeaf {
  values : list Z;
  leaf_parent : option nat;
  next_leaf : option nat;
  previous_leaf : option nat
}.

Record BTreeSubTree := mkSubTree {
  children : list nat;
  subtree_parent : option nat;
  mid_keys : list Z;
  values_number : nat
}.

Inductive BTreeNode :=
| Leaf (leaf : BTreeLeaf)
| SubTree (subtree : BTreeSubTree).

(** The tree: its [root] handle, plus the arena of nodes the handles point
    to and the next fresh handle. *)
Record BTree := mkBTree {
  heap : gmap nat BTreeNode;
  next_id : nat;
  root : option nat
}.

Record BTreeIter := mkIter {
  cur_leaf : option nat;
  cur_ind : nat
}.

(** [BTreeIter::default] *)
Definition iter_default : BTreeIter := mkIter None 0.

(** [BTree::new] *)
Definition btree_new : BTree := mkBTree ∅ 0 None.

(** Field updates. *)
Definition set_values (l : BTreeLeaf) (vs : list Z) : BTreeLeaf :=
  mkLeaf vs (leaf_parent l) (next_leaf l) (previous_leaf l).
Definition set_next_leaf (l : BTreeLeaf) (n : option nat) : BTreeLeaf :=
  mkLeaf (values l) (leaf_parent l) n (previous_leaf l).
Definition set_previous_leaf (l : BTreeLeaf) (p : option nat) : BTreeLeaf :=
  mkLeaf (values l) (leaf_parent l) (next_leaf l) p.
Definition set_children (st : BTreeSubTree) (cs : list nat) : BTreeSubTree :=
  mkSubTree cs (subtree_parent st) (mid_keys st) (values_number st).
Definition set_mid_keys (st : BTreeSubTree) (ks : list Z) : BTreeSubTree :=
  mkSubTree (children st) (subtree_parent st) ks (values_number st).
Definition set_values_number (st : BTreeSubTree) (n : nat) : BTreeSubTree :=
  mkSubTree (children st) (subtree_parent st) (mid_keys st) n.

(** [BTreeNode::is_leaf] *)
Definition is_leaf (n : BTreeNode) : bool :=
  match n with Leaf _ => true | SubTree _ => false end.

(** [BTreeNode::set_parent]: the new reference replaces the old one. *)
Definition node_set_parent (n : BTreeNode) (p : option nat) : BTreeNode :=
  match n with
  | Leaf l => Leaf (mkLeaf (values l) p (next_leaf l) (previous_leaf l))
  | SubTree st => SubTree (mkSubTree (children st) p (mid_keys st) (values_number st))
  end.

(** [BTreeNode::values_number]: the leaf's length or the cached count.  The
    arena slot of a live [Rc] is always present; a missing slot reads 0. *)
Definition values_number_of (h : gmap nat BTreeNode) (id : nat) : nat :=
  match h !! id with
  | Some (Leaf l) => length (values l)
  | Some (SubTree st) => values_number st
  | None => 0
  end.

(** [Vec::sort] on the values of a node.  The sort is stable; on [Z] any
    sort gives the same list. *)
Fixpoint insert_sorted (x : Z) (l : list Z) : list Z :=
  match l with
  | [] => [x]
  | y :: l' => if x <=? y then x :: y :: l' else y :: insert_sorted x l'
  end.

Definition sort_values (l : list Z) : list Z := fold_right insert_sorted [] l.

(** [Vec::remove] and [Vec::insert]: both panic out of range. *)
Definition vec_remove {A} (l : list A) (i : nat) : option (list A) :=
  if (i <? length l)%nat then Some (firstn i l ++ skipn (S i) l) else None.
Definition vec_insert {A} (l : list A) (i : nat) (x : A) : option (list A) :=
  if (i <=? length l)%nat then Some (firstn i l ++ x :: skipn i l) else None.

(** Slices [v[..n]] and [v[n..]]: both panic when [n > len]. *)
Definition slice_to {A} (l : list A) (n : nat) : option (list A) :=
  if (n <=? length l)%nat then Some (firstn n l) else None.
Definition slice_from {A} (l : list A) (n : nat) : option (list A) :=
  if (n <=? length l)%nat then Some (skipn n l) else None.

(** [Iterator::position] *)
Fixpoint position {A} (f : A -> bool) (l : list A) : option nat :=
  match l with
  | [] => None
  | x :: l' => if f x then Some 0%nat else option_map S (position f l')
  end.

(** [BTreeSubTree::get_children_index_by_value] *)
Definition get_children_index_by_value (st : BTreeSubTree) (value : Z) : option nat :=
  match mid_keys st with
  | [k] => Some (if value <? k then 0%nat else 1%nat)
  | [k0; k1] =>
      Some (if value <? k0 then 0%nat
            else if (value >? k0) && (value <? k1) then 1%nat
            else 2%nat)
  | _ => None (* unreachable!() *)
  end.

(** ** The state-and-panic monad *)

Definition M (A : Type) : Type := BTree -> option (A * BTree).

Definition ret {A} (x : A) : M A := fun s => Some (x, s).
Definition bind {A B} (m : M A) (k : A -> M B) : M B :=
  fun s => match m s with Some (x, s') => k x s' | None => None end.
Definition panic {A} : M A := fun _ => None.
Definition lift {A} (o : option A) : M A :=
  fun s => match o with Some x => Some (x, s) | None => None end.

Notation "'let*' x ':=' m 'in' k" := (bind m (fun x => k))
  (at level 200, x name, m at level 100, k at level 200).
Notation "m ;; k" := (bind m (fun _ => k)) (at level 100, right associativity).

Definition get_root : M (option nat) := fun s => Some (root s, s).
Definition set_root (r : nat) : M unit :=
  fun s => Some (tt, mkBTree (heap s) (next_id s) (Some r)).

(** [borrow()] of a handle. *)
Definition get_node (id : nat) : M BTreeNode :=
  fun s => match heap s !! id with Some n => Some (n, s) | None => None end.

(** [borrow_mut()] followed by an assignment. *)
Definition put_node (id : nat) (n : BTreeNode) : M unit :=
  fun s => Some (tt, mkBTree (<[id := n]> (heap s)) (next_id s) (root s)).

(** [Rc::new(RefCell::new(n))] *)
Definition alloc (n : BTreeNode) : M nat :=
  fun s => Some (next_id s,
                 mkBTree (<[next_id s := n]> (heap s)) (S (next_id s)) (root s)).

(** [unwrap_as_leaf(_unchecked)] and [unwrap_as_subtree(_unchecked)]. *)
Definition get_leaf (id : nat) : M BTreeLeaf :=
  let* n := get_node id in
  match n with Leaf l => ret l | SubTree _ => panic end.
Definition get_subtree (id : nat) : M BTreeSubTree :=
  let* n := get_node id in
  match n with SubTree st => ret st | Leaf _ => panic end.

Definition set_parent (id : nat) (p : option nat) : M unit :=
  let* n := get_node id in put_node id (node_set_parent n p).

Fixpoint set_parents (ids : list nat) (p : option nat) : M unit :=
  match ids with
  | [] => ret tt
  | id :: ids' => set_parent id p ;; set_parents ids' p
  end.

Definition sum_values_number (ids : list nat) : M nat :=
  fun s => Some (fold_right (fun id acc => (values_number_of (heap s) id + acc)%nat) 0%nat ids, s).

(** [BTreeSubTree::new]: the count is the sum of the children's counts. *)
Definition subtree_new (cs : list nat) (parent : option nat) (ks : list Z) : M BTreeSubTree :=
  let* vn := sum_values_number cs in ret (mkSubTree cs parent ks vn).

(** ** Insertion *)

(** [BTreeNode::update_parent_value_number]: increment the cached count of
    [parent] and of every ancestor reached through the parent links. *)
Fixpoint update_parent_value_number (fuel : nat) (parent : nat) : M unit :=
  match fuel with
  | O => panic
  | S f =>
      let* st := get_subtree parent in
      put_node parent (SubTree (set_values_number st (S (values_number st)))) ;;
      let* st' := get_subtree parent in
      match subtree_parent st' with
      | Some next_parent => update_parent_value_number f next_parent
      | None => ret tt
      end
  end.

(** [BTree::new_root_after_division] *)
Definition new_root_after_division (first_node second_node : nat) (mid_key : Z) : M nat :=
  let* st := subtree_new [first_node; second_node] None [mid_key] in
  let* new_root := alloc (SubTree st) in
  set_parent first_node (Some new_root) ;;
  set_parent second_node (Some new_root) ;;
  ret new_root.

(** [BTree::insert_to_root_leaf] *)
Definition insert_to_root_leaf (value : Z) : M unit :=
  let* r := get_root in
  let* r := lift r in
  let* leaf := get_leaf r in
  let vals := sort_values (values leaf ++ [value]) in
  put_node r (Leaf (set_values leaf vals)) ;;
  if (length vals <=? MAX_KEYS)%nat then ret tt else
  let* v0 := lift (nth_error vals 0) in
  let* first_leaf := alloc (Leaf (mkLeaf [v0] None None None)) in
  let* rest := lift (slice_from vals 1) in
  let* second_leaf := alloc (Leaf (mkLeaf rest None None (Some first_leaf))) in
  let* mid_key := lift (nth_error vals 1) in
  let* fl := get_leaf first_leaf in
  put_node first_leaf (Leaf (set_next_leaf fl (Some second_leaf))) ;;
  let* new_root := new_root_after_division first_leaf second_leaf mid_key in
  set_root new_root.

(** [BTree::rebalance_root_after_mid_key_insertion] *)
Definition rebalance_root_after_mid_key_insertion : M unit :=
  let* r := get_root in
  let* r := lift r in
  let* root_tree := get_subtree r in
  let* cs1 := lift (slice_to (children root_tree) 2) in
  let* k0 := lift (nth_error (mid_keys root_tree) 0) in
  let* st1 := subtree_new cs1 None [k0] in
  let* first_subtree := alloc (SubTree st1) in
  set_parents cs1 (Some first_subtree) ;;
  let* cs2 := lift (slice_from (children root_tree) 2) in
  let* k2 := lift (nth_error (mid_keys root_tree) 2) in
  let* st2 := subtree_new cs2 None [k2] in
  let* second_subtree := alloc (SubTree st2) in
  set_parents cs2 (Some second_subtree) ;;
  let* k1 := lift (nth_error (mid_keys root_tree) 1) in
  let* new_root := new_root_after_division first_subtree second_subtree k1 in
  set_root new_root.

(** Replace the child at [i] by the two nodes [a] and [b]:
    [children.remove(i); children.insert(i, a); children.insert(i + 1, b)]. *)
Definition replace_child (cs : list nat) (i a b : nat) : option (list nat) :=
  match vec_remove cs i with
  | Some cs1 =>
      match vec_insert cs1 i a with
      | Some cs2 => vec_insert cs2 (S i) b
      | None => None
      end
  | None => None
  end.

(** [BTree::insert_mid_key_to_parent_subtree] *)
Fixpoint insert_mid_key_to_parent_subtree (fuel : nat) (subtree : nat) (mid_key : Z) : M unit :=
  match fuel with
  | O => panic
  | S f =>
      let* tree := get_subtree subtree in
      let keys := sort_values (mid_keys tree ++ [mid_key]) in
      put_node subtree (SubTree (set_mid_keys tree keys)) ;;
      if (length keys <=? MAX_KEYS)%nat then ret tt else
      let* tree := get_subtree subtree in
      match subtree_parent tree with
      | None => rebalance_root_after_mid_key_insertion
      | Some gp =>
          let* cs1 := lift (slice_to (children tree) 2) in
          let* k0 := lift (nth_error (mid_keys tree) 0) in
          let* st1 := subtree_new cs1 (Some gp) [k0] in
          let* first_subtree := alloc (SubTree st1) in
          set_parents cs1 (Some first_subtree) ;;
          let* cs2 := lift (slice_from (children tree) 2) in
          let* k2 := lift (nth_error (mid_keys tree) 2) in
          let* st2 := subtree_new cs2 (Some gp) [k2] in
          let* second_subtree := alloc (SubTree st2) in
          set_parents cs2 (Some second_subtree) ;;
          let* k1 := lift (nth_error (mid_keys tree) 1) in
          let* parent_tree := get_subtree gp in
          let* idx := lift (position (Nat.eqb subtree) (children parent_tree)) in
          let* cs := lift (replace_child (children parent_tree) idx first_subtree second_subtree) in
          put_node gp (SubTree (set_children parent_tree cs)) ;;
          insert_mid_key_to_parent_subtree f gp k1
      end
  end.

(** [BTree::insert_to_leaf] *)
Definition insert_to_leaf (fuel : nat) (leaf : nat) (leaf_ind : nat) (value : Z) : M unit :=
  let* leaf_ref := get_leaf leaf in
  let vals := sort_values (values leaf_ref ++ [value]) in
  put_node leaf (Leaf (set_values leaf_ref vals)) ;;
  if (length vals <=? MAX_KEYS)%nat then
    let* parent_tree := lift (leaf_parent leaf_ref) in
    update_parent_value_number fuel parent_tree
  else
    let* v0 := lift (nth_error vals 0) in
    let* first_leaf :=
      alloc (Leaf (mkLeaf [v0] (leaf_parent leaf_ref) None (previous_leaf leaf_ref))) in
    match previous_leaf leaf_ref with
    | Some prev_leaf =>
        let* pl := get_leaf prev_leaf in
        put_node prev_leaf (Leaf (set_next_leaf pl (Some first_leaf)))
    | None => ret tt
    end ;;
    let* rest := lift (slice_from vals 1) in
    let* second_leaf :=
      alloc (Leaf (mkLeaf rest (leaf_parent leaf_ref) (next_leaf leaf_ref) (Some first_leaf))) in
    match next_leaf leaf_ref with
    | Some nxt =>
        let* nl := get_leaf nxt in
        put_node nxt (Leaf (set_previous_leaf nl (Some second_leaf)))
    | None => ret tt
    end ;;
    let* fl := get_leaf first_leaf in
    put_node first_leaf (Leaf (set_next_leaf fl (Some second_leaf))) ;;
    let* parent_tree := lift (leaf_parent leaf_ref) in
    let* mid_key := lift (nth_error vals 1) in
    update_parent_value_number fuel parent_tree ;;
    let* parent_subtree := get_subtree parent_tree in
    let* cs := lift (replace_child (children parent_subtree) leaf_ind first_leaf second_leaf) in
    put_node parent_tree (SubTree (set_children parent_subtree cs)) ;;
    insert_mid_key_to_parent_subtree fuel parent_tree mid_key.

(** [BTree::insert_to_subtree], with [BTree::insert_to_children_subtree]
    inlined: descend by [get_children_index_by_value]; [fuel] bounds the
    walks up the parent links, [depth] the descent. *)
Fixpoint insert_to_subtree (fuel depth : nat) (subtree : nat) (value : Z) : M unit :=
  match depth with
  | O => panic
  | S d =>
      let* st := get_subtree subtree in
      let* child_subtree_index := lift (get_children_index_by_value st value) in
      (* insert_to_children_subtree *)
      let* st := get_subtree subtree in
      let* node := lift (nth_error (children st) child_subtree_index) in
      let* n := get_node node in
      if is_leaf n then insert_to_leaf fuel node child_subtree_index value
      else insert_to_subtree fuel d node value
  end.

(** The fuel of one insertion: more than the number of nodes ever allocated. *)
Definition insert_fuel (s : BTree) : nat := S (next_id s).

(** [BTree::insert] *)
Definition insert (value : Z) : M unit :=
  fun s =>
  (let* r := get_root in
   match r with
   | None =>
       let* id := alloc (Leaf (mkLeaf [value] None None None)) in
       set_root id
   | Some r =>
       let* n := get_node r in
       if is_leaf n then insert_to_root_leaf value
       else insert_to_subtree (insert_fuel s) (insert_fuel s) r value
   end) s.

(** [Extend::extend]: repeated [insert]. *)
Fixpoint extend (s : BTree) (xs : list Z) : option BTree :=
  match xs with
  | [] => Some s
  | x :: xs' =>
      match insert x s with
      | Some (_, s') => extend s' xs'
      | None => None
      end
  end.

(** [FromIterator::from_iter] *)
Definition from_iter (xs : list Z) : option BTree := extend btree_new xs.

(** ** Reading: size, rank access, search, cursors *)

(** [BTree::len] *)
Definition len (s : BTree) : nat :=
  match root s with
  | Some r => values_number_of (heap s) r
  | None => 0
  end.

(** [BTreeNode::first_leaf]: follow the first child down to a leaf. *)
Fixpoint first_leaf (fuel : nat) (h : gmap nat BTreeNode) (id : nat) : option nat :=
  match fuel with
  | O => None
  | S f =>
      match h !! id with
      | Some (Leaf _) => Some id
      | Some (SubTree st) =>
          match children st with
          | c :: _ => first_leaf f h c
          | [] => None
          end
      | None => None
      end
  end.

Definition leaf_at (h : gmap nat BTreeNode) (id : nat) : option BTreeLeaf :=
  match h !! id with Some (Leaf l) => Some l | _ => None end.

(** [BTree::is_empty] *)
Definition is_empty (s : BTree) : bool := Nat.eqb (len s) 0.

(** [BTree::is_not_empty] *)
Definition is_not_empty (s : BTree) : bool := negb (is_empty s).

(** [BTreeNode::last_leaf]: follow the last child down to a leaf. *)
Fixpoint last_leaf (fuel : nat) (h : gmap nat BTreeNode) (id : nat) : option nat :=
  match fuel with
  | O => None
  | S f =>
      match h !! id with
      | Some (Leaf _) => Some id
      | Some (SubTree st) =>
          match last (children st) with
          | Some c => last_leaf f h c
          | None => None
          end
      | None => None
      end
  end.

(** [BTreeNode::first] and [BTreeNode::last]: the first (last) value of the
    first (last) leaf.  The outer [None] is a panic. *)
Definition node_first (fuel : nat) (h : gmap nat BTreeNode) (id : nat) : option (option Z) :=
  match first_leaf fuel h id with
  | Some l => match leaf_at h l with Some lf => Some (head (values lf)) | None => None end
  | None => None
  end.
Definition node_last (fuel : nat) (h : gmap nat BTreeNode) (id : nat) : option (option Z) :=
  match last_leaf fuel h id with
  | Some l => match leaf_at h l with Some lf => Some (last (values lf)) | None => None end
  | None => None
  end.

(** [BTree::first] and [BTree::last]. *)
Definition btree_first (s : BTree) : option (option Z) :=
  match root s with Some r => node_first (insert_fuel s) (heap s) r | None => Some None end.
Definition btree_last (s : BTree) : option (option Z) :=
  match root s with Some r => node_last (insert_fuel s) (heap s) r | None => Some None end.

(** [BTree::iter] (and [IntoIterator::into_iter], which is the same code). *)
Definition iter (s : BTree) : option BTreeIter :=
  match root s with
  | None => Some iter_default
  | Some r =>
      match first_leaf (insert_fuel s) (heap s) r with
      | Some l => Some (mkIter (Some l) 0)
      | None => None
      end
  end.

(** [Iterator::next] for [BTreeIter]: the outer [None] is a panic, the
    inner option is the item. *)
Definition next (h : gmap nat BTreeNode) (it : BTreeIter) : option (option Z * BTreeIter) :=
  match cur_leaf it with
  | None => Some (None, it)
  | Some l =>
      match leaf_at h l with
      | None => None
      | Some leaf =>
          let step :=
            if (S (cur_ind it) <? length (values leaf))%nat then inl tt
            else inr (next_leaf leaf) in
          match nth_error (values leaf) (cur_ind it) with
          | None => None
          | Some cur_val =>
              match step with
              | inl _ => Some (Some cur_val, mkIter (Some l) (S (cur_ind it)))
              | inr nl => Some (Some cur_val, mkIter nl 0)
              end
          end
      end
  end.

(** [DoubleEndedIterator::next_back] for [BTreeIter]. *)
Definition next_back (h : gmap nat BTreeNode) (it : BTreeIter) : option (option Z * BTreeIter) :=
  match cur_leaf it with
  | None => Some (None, it)
  | Some l =>
      match leaf_at h l with
      | None => None
      | Some leaf =>
          let step :=
            if (0 <? cur_ind it)%nat then inl tt else inr (previous_leaf leaf) in
          match nth_error (values leaf) (cur_ind it) with
          | None => None
          | Some cur_val =>
              match step with
              | inl _ => Some (Some cur_val, mkIter (Some l) (cur_ind it - 1))
              | inr None => Some (Some cur_val, mkIter None 0)
              | inr (Some p) =>
                  match leaf_at h p with
                  | Some pl => Some (Some cur_val, mkIter (Some p) (length (values pl)))
                  | None => None
                  end
              end
          end
      end
  end.

(** Drain a cursor forwards ([collect]), at most [n] items. *)
Fixpoint collect_fwd (n : nat) (h : gmap nat BTreeNode) (it : BTreeIter) : option (list Z) :=
  match n with
  | O => Some []
  | S n' =>
      match next h it with
      | None => None
      | Some (None, _) => Some []
      | Some (Some x, it') =>
          match collect_fwd n' h it' with
          | Some xs => Some (x :: xs)
          | None => None
          end
      end
  end.

(** Drain a cursor backwards ([rev().collect()]), at most [n] items. *)
Fixpoint collect_back (n : nat) (h : gmap nat BTreeNode) (it : BTreeIter) : option (list Z) :=
  match n with
  | O => Some []
  | S n' =>
      match next_back h it with
      | None => None
      | Some (None, _) => Some []
      | Some (Some x, it') =>
          match collect_back n' h it' with
          | Some xs => Some (x :: xs)
          | None => None
          end
      end
  end.

(** [BTreeNode::find]: descend to the leaf selected by the separator keys. *)
Fixpoint node_find (fuel : nat) (h : gmap nat BTreeNode) (id : nat) (value : Z) : option nat :=
  match fuel with
  | O => None
  | S f =>
      match h !! id with
      | Some (Leaf _) => Some id
      | Some (SubTree st) =>
          match get_children_index_by_value st value with
          | Some ci =>
              match nth_error (children st) ci with
              | Some c => node_find f h c value
              | None => None
              end
          | None => None
          end
      | None => None
      end
  end.

(** [BTree::find] *)
Definition find (s : BTree) (value : Z) : option BTreeIter :=
  match root s with
  | None => Some iter_default
  | Some r =>
      match node_find (insert_fuel s) (heap s) r value with
      | None => None
      | Some l =>
          match leaf_at (heap s) l with
          | None => None
          | Some leaf =>
              match position (fun v => value <=? v) (values leaf) with
              | Some i => Some (mkIter (Some l) i)
              | None => Some iter_default
              end
          end
      end
  end.

(** The [skip_while] of [BTreeNode::get]: skip the children whose count
    does not exceed the remaining index. *)
Fixpoint skip_children (h : gmap nat BTreeNode) (cs : list nat) (index : nat) : option (nat * nat) :=
  match cs with
  | [] => None
  | c :: cs' =>
      let vn := values_number_of h c in
      if (index <? vn)%nat then Some (c, index) else skip_children h cs' (index - vn)
  end.

(** [BTreeNode::get] *)
Fixpoint node_get (fuel : nat) (h : gmap nat BTreeNode) (id : nat) (index : nat) : option Z :=
  match fuel with
  | O => None
  | S f =>
      match h !! id with
      | Some (Leaf l) => nth_error (values l) index
      | Some (SubTree st) =>
          match skip_children h (children st) index with
          | Some (c, i) => node_get f h c i
          | None => None
          end
      | None => None
      end
  end.

(** [BTree::get]: [Some None] is the absence, [None] a panic. *)
Definition get (s : BTree) (index : nat) : option (option Z) :=
  if (len s <=? index)%nat then Some None
  else
    match root s with
    | Some r =>
        match node_get (insert_fuel s) (heap s) r index with
        | Some x => Some (Some x)
        | None => None
        end
    | None => None
    end.

(** [BTree::get_unchecked]: [BTreeNode::get] on the root, which is
    unwrapped; [None] is a panic. *)
Definition get_unchecked (s : BTree) (index : nat) : option Z :=
  match root s with
  | Some r => node_get (insert_fuel s) (heap s) r index
  | None => None
  end.

(** The forward iteration of a tree built from [xs]. *)
Definition iterate (xs : list Z) : option (list Z) :=
  match from_iter xs with
  | Some s =>
      match iter s with
      | Some it => collect_fwd (S (len s)) (heap s) it
      | None => None
      end
  | None => None
  end.

(** The values of the leaves reached from [start] through [next_leaf]. *)
Fixpoint leaf_chain (fuel : nat) (h : gmap nat BTreeNode) (start : option nat) : option (list (list Z)) :=
  match start with
  | None => Some []
  | Some id =>
      match fuel with
      | O => None
      | S f =>
          match leaf_at h id with
          | Some lf =>
              match leaf_chain f h (next_leaf lf) with
              | Some ls => Some (values lf :: ls)
              | None => None
              end
          | None => None
          end
      end
  end.

(** Drive one cursor through a sequence of steps: [true] is [next],
    [false] is [next_back]; the items returned, in order. *)
Fixpoint run_steps (h : gmap nat BTreeNode) (it : BTreeIter) (steps : list bool) : option (list (option Z)) :=
  match steps with
  | [] => Some []
  | b :: steps' =>
      match (if b then next h it else next_back h it) with
      | Some (x, it') =>
          match run_steps h it' steps' with
          | Some xs => Some (x :: xs)
          | None => None
          end
      | None => None
      end
  end.

(** The root node of a tree. *)
Definition root_node (s : BTree) : option BTreeNode :=
  match root s with Some r => heap s !! r | None => None end.

(** ** Abstract view of the node graph, for the invariants *)

(** The tree reachable from a handle through [children]: a leaf with its
    handle and values, or an internal node with its handle, separator keys
    and children. *)
#[warnings="-register-all"]
Inductive tr :=
| TL (id : nat) (vs : list Z)
| TN (id : nat) (ks : list Z) (cs : list tr).

Definition rid (t : tr) : nat := match t with TL id _ => id | TN id _ _ => id end.

(** The number of values stored below a node. *)
Fixpoint size (t : tr) : nat :=
  match t with
  | TL _ vs => length vs
  | TN _ _ cs => list_sum (map size cs)
  end.

(** The handles of all nodes of the tree. *)
Fixpoint ids (t : tr) : list nat :=
  match t with
  | TL id _ => [id]
  | TN id _ cs => id :: flat_map ids cs
  end.

(** The values stored in the leaves, left to right. *)
Fixpoint elems (t : tr) : list Z :=
  match t with
  | TL _ vs => vs
  | TN _ _ cs => flat_map elems cs
  end.

(** [repr h par t]: the arena [h] holds the tree [t] whose root has the
    parent link [par]: every leaf holds its values; every internal node
    lists its children's handles, its keys, and caches the number of values
    below it; every child points back to its parent. *)
Fixpoint repr (h : gmap nat BTreeNode) (par : option nat) (t : tr) : Prop :=
  match t with
  | TL id vs => exists nx pv, h !! id = Some (Leaf (mkLeaf vs par nx pv))
  | TN id ks cs =>
      h !! id = Some (SubTree (mkSubTree (map rid cs) par ks (list_sum (map size cs))))
      /\ (fix reprs (cs : list tr) : Prop :=
            match cs with
            | [] => True
            | c :: cs' => repr h (Some id) c /\ reprs cs'
            end) cs
  end.

(** The shape invariants of the spec: a leaf holds 1 or 2 values, sorted;
    an internal node has 2 or 3 children and one key fewer, sorted. *)
Fixpoint shape_ok (t : tr) : Prop :=
  match t with
  | TL _ vs => (1 <= length vs <= 2)%nat /\ Sorted Z.le vs
  | TN _ ks cs =>
      (2 <= length cs <= 3)%nat /\ length ks = (length cs - 1)%nat /\ Sorted Z.le ks
      /\ (fix shapes (cs : list tr) : Prop :=
            match cs with
            | [] => True
            | c :: cs' => shape_ok c /\ shapes cs'
            end) cs
  end.

(** The invariants C8 asks for, on a tree state: empty, or a root whose
    reachable nodes satisfy [repr] (cached counts) and [shape_ok]. *)
Definition btree_invariants (s : BTree) : Prop :=
  root s = None
  \/ exists t, root s = Some (rid t) /\ repr (heap s) None t /\ shape_ok t.

(** A one-hole context: the path from a node up to the root.  A frame is
    an internal node with the hole among its children. *)
Record frame := Frame {
  fr_id : nat;
  fr_keys : list Z;
  fr_left : list tr;
  fr_right : list tr
}.

Fixpoint plug (t : tr) (p : list frame) : tr :=
  match p with
  | [] => t
  | f :: p' => plug (TN (fr_id f) (fr_keys f) (fr_left f ++ t :: fr_right f)) p'
  end.

Definition hole_par (par : option nat) (p : list frame) : option nat :=
  match p with [] => par | f :: _ => Some (fr_id f) end.

Definition sizes (cs : list tr) : nat := list_sum (map size cs).

(** [ctx_ok h par p hid hs]: the arena holds the context [p] around a hole
    with handle [hid] holding [hs] values. *)
Fixpoint ctx_ok (h : gmap nat BTreeNode) (par : option nat) (p : list frame)
    (hid hs : nat) : Prop :=
  match p with
  | [] => True
  | f :: p' =>
      h !! fr_id f = Some (SubTree (mkSubTree
         (map rid (fr_left f) ++ hid :: map rid (fr_right f)) (hole_par par p')
         (fr_keys f) (sizes (fr_left f) + hs + sizes (fr_right f))))
      /\ Forall (repr h (Some (fr_id f))) (fr_left f ++ fr_right f)
      /\ ctx_ok h par p' (fr_id f) (sizes (fr_left f) + hs + sizes (fr_right f))
  end.

Definition ctx_ids (p : list frame) : list nat :=
  flat_map (fun f => fr_id f :: flat_map ids (fr_left f) ++ flat_map ids (fr_right f)) p.

(** The values a context holds besides those of its hole. *)
Definition ctx_size (p : list frame) : nat :=
  list_sum (map (fun f => sizes (fr_left f) + sizes (fr_right f))%nat p).

Definition ctx_shape (p : list frame) : Prop :=
  Forall (fun f =>
    (2 <= length (fr_left f) + 1 + length (fr_right f) <= 3)%nat
    /\ length (fr_keys f) = (length (fr_left f) + length (fr_right f))%nat
    /\ Sorted Z.le (fr_keys f)
    /\ Forall shape_ok (fr_left f ++ fr_right f)) p.

(** The leaf links point at leaves. *)
Definition leaf_link (h : gmap nat BTreeNode) (o : option nat) : Prop :=
  match o with None => True | Some x => exists l, h !! x = Some (Leaf l) end.

Definition links_ok (h : gmap nat BTreeNode) : Prop :=
  forall x l, h !! x = Some (Leaf l) ->
    leaf_link h (next_leaf l) /\ leaf_link h (previous_leaf l).

(** Two arena slots that agree up to the leaf links: splitting a leaf
    relinks its neighbours, which changes nothing else about them. *)
Definition node_equiv (o o' : option BTreeNode) : Prop :=
  o' = o \/ exists l l', o = Some (Leaf l) /\ o' = Some (Leaf l')
                        /\ values l' = values l /\ leaf_parent l' = leaf_parent l.

(** Every handle in use is below the allocation counter. *)
Definition fresh_ok (s : BTree) : Prop :=
  forall x n, heap s !! x = Some n -> (x < next_id s)%nat.

(** The invariant carried through the insertion proof. *)
Definition tree_inv (s : BTree) (t : tr) : Prop :=
  root s = Some (rid t) /\ repr (heap s) None t /\ shape_ok t /\ NoDup (ids t)
  /\ links_ok (heap s) /\ fresh_ok s.

Definition state_inv (s : BTree) : Prop :=
  (root s = None /\ links_ok (heap s) /\ fresh_ok s) \/ exists t, tree_inv s t.

(** [state_elems s l]: the tree of [s] satisfies the invariant and stores
    the values [l], left to right. *)
Definition state_elems (s : BTree) (l : list Z) : Prop :=
  (root s = None /\ links_ok (heap s) /\ fresh_ok s /\ l = [])
  \/ exists t, tree_inv s t /\ elems t = l.

(** States reachable through the public API. *)
Definition reachable (s : BTree) : Prop := exists xs, from_iter xs = Some s.

(** * Theorems *)

(** ** Concrete behaviour *)

(** C1 (code_bug).  Round trip through the tree: building from
    [0; 1; 3; 4; 2; 1] and iterating forward does not give the sorted
    sequence [0; 1; 1; 2; 3; 4]: the second [1] equals the first separator
    key of a two-key node and is routed to the last child, after the [2]. *)
Theorem c1_iterate_unsorted :
  iterate [0; 1; 3; 4; 2; 1] = Some [0; 1; 2; 1; 3; 4]
  /\ iterate [0; 1; 1; 2; 3; 4] = Some [0; 1; 1; 2; 3; 4].
Proof. split; vm_compute; reflexivity. Qed.

(** C3 (code_bug).  After inserting [0], [2], [3] the leaves are [[0]] and
    [[2; 3]]; [find 1] descends to [[0]], finds no value [>= 1] there and
    returns an exhausted cursor although [2] is stored.  On the tree built
    from [0; 1; 2; 3], [find 1] is routed past the leaf holding [1] and its
    cursor starts at [2]. *)
Theorem c3_find_misses :
  (exists s, from_iter [0; 2; 3] = Some s
             /\ find s 1 = Some iter_default
             /\ iterate [0; 2; 3] = Some [0; 2; 3])
  /\ (exists s it, from_iter [0; 1; 2; 3] = Some s
             /\ find s 1 = Some it
             /\ option_map fst (next (heap s) it) = Some (Some 2)).
Proof.
  split.
  - eexists; split; [vm_compute; reflexivity|]. split; vm_compute; reflexivity.
  - do 2 eexists; split; [vm_compute; reflexivity|]. split; vm_compute; reflexivity.
Qed.

(** C4 (code_bug).  On the tree built from [0; 1; 3; 4; 2; 1] (stored
    values [0; 1; 1; 2; 3; 4] in sorted order), [get 3] returns [1], not the
    rank-3 value [2]. *)
Theorem c4_get_wrong_rank :
  exists s, from_iter [0; 1; 3; 4; 2; 1] = Some s
            /\ len s = 6%nat
            /\ get s 3 = Some (Some 1).
Proof. eexists; split; [vm_compute; reflexivity|]. split; vm_compute; reflexivity. Qed.

(** C6 (code_bug).  On the tree built from [0; 1; 2] (leaves [[0]] and
    [[1; 2]]), the cursor [find 2] stepped backwards yields [2] and [1]; the
    step across the leaf boundary sets the index to the length [1] of the
    leaf [[0]], one past its last offset, and the next backward step panics
    on the out-of-range index instead of yielding [0]. *)
Theorem c6_next_back_panics :
  exists s it, from_iter [0; 1; 2] = Some s
    /\ find s 2 = Some it
    /\ run_steps (heap s) it [false; false] = Some [Some 2; Some 1]
    /\ run_steps (heap s) it [false; false; false] = None.
Proof.
  do 2 eexists; split; [vm_compute; reflexivity|].
  split; [vm_compute; reflexivity|]. split; vm_compute; reflexivity.
Qed.

(** C7, counterexample.  One cursor of the tree built from [1; 2], consumed
    with [next], [next_back], [next_back]: it yields [1], [2] and then [1]
    again. *)
Theorem c7_double_yield :
  exists s it, from_iter [1; 2] = Some s /\ iter s = Some it
    /\ run_steps (heap s) it [true; false; false; true]
       = Some [Some 1; Some 2; Some 1; None].
Proof.
  do 2 eexists; split; [vm_compute; reflexivity|].
  split; vm_compute; reflexivity.
Qed.

(** C9, counterexample.  After inserting [0], [1], [2], [3] the root does not
    have the single separator key [2]. *)
Theorem c9_not_single_key :
  exists s st, from_iter [0; 1; 2; 3] = Some s /\ root_node s = Some (SubTree st)
    /\ mid_keys st <> [2].
Proof.
  do 2 eexists; split; [vm_compute; reflexivity|].
  split; [vm_compute; reflexivity|]. simpl. discriminate.
Qed.

(** C9 (corrected).  The root leaf already splits when [2] is inserted (it
    would hold three values): the root then has key [1] and the leaf chain is
    [[0] -> [1; 2]].  Inserting [3] splits the leaf [[1; 2; 3]]: the root
    holds the keys [1; 2] over three leaves, chained [[0] -> [1] -> [2; 3]]. *)
Theorem c9_split_scenario :
  (exists s st, from_iter [0; 1; 2] = Some s /\ root_node s = Some (SubTree st)
     /\ mid_keys st = [1] /\ length (children st) = 2%nat
     /\ option_map (fun it => leaf_chain 10 (heap s) (cur_leaf it)) (iter s)
        = Some (Some [[0]; [1; 2]]))
  /\ (exists s st, from_iter [0; 1; 2; 3] = Some s /\ root_node s = Some (SubTree st)
     /\ mid_keys st = [1; 2] /\ length (children st) = 3%nat
     /\ option_map (fun it => leaf_chain 10 (heap s) (cur_leaf it)) (iter s)
        = Some (Some [[0]; [1]; [2; 3]])).
Proof.
  split; do 2 eexists; (split; [vm_compute; reflexivity|]);
    (split; [vm_compute; reflexivity|]); vm_compute; repeat split.
Qed.

(** C10.  The empty tree iterates as the empty sequence in both
    directions: [iter] (and [into_iter], the same code) gives the exhausted
    cursor, on which [next] and [next_back] return [None] and leave it
    exhausted, however often they are called. *)
Theorem c10_empty_iter :
  iter btree_new = Some iter_default
  /\ (forall h, next h iter_default = Some (None, iter_default))
  /\ (forall h, next_back h iter_default = Some (None, iter_default))
  /\ (forall h steps, run_steps h iter_default steps = Some (map (fun _ => None) steps)).
Proof.
  split; [reflexivity|]. split; [reflexivity|]. split; [reflexivity|].
  intros h steps. induction steps as [|b steps IH]; [reflexivity|].
  simpl. destruct b; simpl; rewrite IH; reflexivity.
Qed.

(** C2, counterexample.  With the separator keys [0; 2], the probe [2]
    (equal to the second key, so not above it) goes to child 2, not to
    child 1. *)
Theorem c2_equal_to_k1_goes_right :
  ~ (forall st k0 k1 v, mid_keys st = [k0; k1] -> k0 < k1 -> k0 <= v <= k1 ->
       get_children_index_by_value st v = Some 1%nat).
Proof.
  intros H.
  specialize (H (mkSubTree [] None [0; 2] 0) 0 2 2 eq_refl ltac:(lia) ltac:(lia)).
  vm_compute in H. discriminate.
Qed.

(** C2 (corrected).  The descent rule.  With two separator keys [k0 < k1]:
    child 0 when [v < k0], child 1 when [k0 < v < k1], child 2 when [v >= k1]
    (a probe equal to [k1] goes to the right of it).  With one key [k]:
    child 0 when [v < k], child 1 when [v >= k]. *)
Theorem c2_descent_rule :
  (forall st k0 k1 v, mid_keys st = [k0; k1] -> k0 < k1 ->
     (v < k0 -> get_children_index_by_value st v = Some 0%nat)
     /\ (k0 < v < k1 -> get_children_index_by_value st v = Some 1%nat)
     /\ (k1 <= v -> get_children_index_by_value st v = Some 2%nat))
  /\ (forall st k v, mid_keys st = [k] ->
     (v < k -> get_children_index_by_value st v = Some 0%nat)
     /\ (k <= v -> get_children_index_by_value st v = Some 1%nat)).
Proof.
  split.
  - intros st k0 k1 v Hk Hlt. unfold get_children_index_by_value. rewrite Hk.
    repeat split; intros Hv.
    + destruct (Z.ltb_spec v k0); [reflexivity | lia].
    + destruct (Z.ltb_spec v k0); [lia|].
      destruct (Z.gtb_spec v k0); [|lia]. destruct (Z.ltb_spec v k1); [reflexivity | lia].
    + destruct (Z.ltb_spec v k0); [lia|].
      destruct (Z.ltb_spec v k1); [lia|]. rewrite andb_false_r. reflexivity.
  - intros st k v Hk. unfold get_children_index_by_value. rewrite Hk.
    split; intros Hv; destruct (Z.ltb_spec v k); solve [reflexivity | lia].
Qed.

Lemma c2_descent_rule_witness :
  get_children_index_by_value (mkSubTree [] None [0; 2] 0) (-1) = Some 0%nat
  /\ get_children_index_by_value (mkSubTree [] None [0; 2] 0) 1 = Some 1%nat
  /\ get_children_index_by_value (mkSubTree [] None [0; 2] 0) 2 = Some 2%nat
  /\ get_children_index_by_value (mkSubTree [] None [5] 0) 5 = Some 1%nat.
Proof.
  destruct c2_descent_rule as [H2 H1].
  split; [apply (H2 (mkSubTree [] None [0; 2] 0) 0 2); [reflexivity | lia | lia]|].
  split; [apply (H2 (mkSubTree [] None [0; 2] 0) 0 2); [reflexivity | lia | lia]|].
  split; [apply (H2 (mkSubTree [] None [0; 2] 0) 0 2); [reflexivity | lia | lia]|].
  apply (H1 (mkSubTree [] None [5] 0) 5); [reflexivity | lia].
Defined.

(** ** The abstract view: induction, decomposition along a context *)

Section AbstractTree.

Lemma tr_ind' (P : tr -> Prop)
    (HL : forall id vs, P (TL id vs))
    (HN : forall id ks cs, Forall P cs -> P (TN id ks cs)) :
  forall t, P t.
Proof.
  fix IH 1. intros [id vs | id ks cs].
  - apply HL.
  - apply HN.
    exact ((fix go (cs : list tr) : Forall P cs :=
              match cs with
              | [] => List.Forall_nil P
              | c :: cs' => @List.Forall_cons tr P c cs' (IH c) (go cs')
              end) cs).
Qed.

Lemma repr_TN h par id ks cs :
  repr h par (TN id ks cs) <->
  h !! id = Some (SubTree (mkSubTree (map rid cs) par ks (sizes cs)))
  /\ Forall (repr h (Some id)) cs.
Proof.
  simpl. unfold sizes. split; intros [Hn Hc]; split; auto.
  - clear Hn. induction cs as [|c cs IH]; [constructor|].
    destruct Hc as [Hc1 Hc2]. constructor; auto.
  - clear Hn. induction cs as [|c cs IH]; [exact I|].
    apply Forall_cons in Hc as [Hc1 Hc2]. split; [exact Hc1 | apply IH, Hc2].
Qed.

Lemma repr_TL h par id vs :
  repr h par (TL id vs) <-> exists nx pv, h !! id = Some (Leaf (mkLeaf vs par nx pv)).
Proof. reflexivity. Qed.

Lemma shape_TN id ks cs :
  shape_ok (TN id ks cs) <->
  (2 <= length cs <= 3)%nat /\ length ks = (length cs - 1)%nat /\ Sorted Z.le ks
  /\ Forall shape_ok cs.
Proof.
  simpl. split; intros (H1 & H2 & H3 & Hc); refine (conj H1 (conj H2 (conj H3 _))).
  - clear -Hc. induction cs as [|c cs IH]; [constructor|].
    destruct Hc as [Hc1 Hc2]. constructor; auto.
  - clear -Hc. induction cs as [|c cs IH]; [exact I|].
    apply Forall_cons in Hc as [Hc1 Hc2]. split; [exact Hc1 | apply IH, Hc2].
Qed.

Lemma size_TN id ks cs : size (TN id ks cs) = sizes cs.
Proof. reflexivity. Qed.

Lemma sizes_app l1 l2 : sizes (l1 ++ l2) = (sizes l1 + sizes l2)%nat.
Proof. unfold sizes. rewrite map_app, list_sum_app. reflexivity. Qed.

Lemma sizes_cons c l : sizes (c :: l) = (size c + sizes l)%nat.
Proof. reflexivity. Qed.

Lemma elem_of_flat_map {A B} (f : A -> list B) (l : list A) (x : B) :
  x ∈ flat_map f l <-> exists y, y ∈ l /\ x ∈ f y.
Proof.
  rewrite list_elem_of_In, in_flat_map. split.
  - intros (y & Hy & Hx). exists y. rewrite !list_elem_of_In. auto.
  - intros (y & Hy & Hx). exists y. rewrite <- !list_elem_of_In. auto.
Qed.

Lemma rid_in_ids t : rid t ∈ ids t.
Proof. destruct t; simpl; left. Qed.

Lemma ids_TN id ks cs : ids (TN id ks cs) = id :: flat_map ids cs.
Proof. reflexivity. Qed.

Lemma ids_plug t p : ids (plug t p) ≡ₚ ids t ++ ctx_ids p.
Proof.
  revert t. induction p as [|f p IH]; intros t; simpl.
  - rewrite app_nil_r. reflexivity.
  - rewrite IH. simpl. rewrite flat_map_app. simpl.
    unfold ctx_ids. simpl. solve_Permutation.
Qed.

Lemma rid_plug t1 t2 p : rid t1 = rid t2 -> rid (plug t1 p) = rid (plug t2 p).
Proof.
  revert t1 t2. induction p as [|f p IH]; intros t1 t2 E; simpl; [exact E|].
  apply IH. reflexivity.
Qed.

Lemma size_plug t p : size (plug t p) = (size t + ctx_size p)%nat.
Proof.
  revert t. induction p as [|f p IH]; intros t; [unfold ctx_size; simpl; lia|].
  simpl plug. rewrite IH, size_TN, sizes_app, sizes_cons. unfold ctx_size. simpl. lia.
Qed.

Lemma repr_plug h par t p :
  repr h par (plug t p) <-> repr h (hole_par par p) t /\ ctx_ok h par p (rid t) (size t).
Proof.
  revert t. induction p as [|f p IH]; intros t.
  - simpl. tauto.
  - simpl plug. rewrite IH, repr_TN, size_TN. cbn [rid hole_par ctx_ok].
    rewrite map_app, sizes_app, sizes_cons, !Forall_app, Forall_cons.
    replace (sizes (fr_left f) + (size t + sizes (fr_right f)))%nat
      with (sizes (fr_left f) + size t + sizes (fr_right f))%nat by lia.
    tauto.
Qed.

Lemma shape_plug t p : shape_ok (plug t p) <-> shape_ok t /\ ctx_shape p.
Proof.
  revert t. induction p as [|f p IH]; intros t; simpl.
  - unfold ctx_shape. rewrite Forall_nil. tauto.
  - rewrite IH, shape_TN. unfold ctx_shape. rewrite Forall_cons.
    rewrite length_app. simpl. rewrite !Forall_app, Forall_cons.
    replace (length (fr_left f) + S (length (fr_right f)) - 1)%nat
      with (length (fr_left f) + length (fr_right f))%nat by lia.
    replace (length (fr_left f) + S (length (fr_right f)))%nat
      with (length (fr_left f) + 1 + length (fr_right f))%nat by lia.
    tauto.
Qed.

Lemma repr_agree h h' par t :
  repr h par t -> (forall x, x ∈ ids t -> h' !! x = h !! x) -> repr h' par t.
Proof.
  revert par. induction t as [id vs | id ks cs IH] using tr_ind'; intros par Hr Hag.
  - destruct Hr as (nx & pv & Hn). exists nx, pv. rewrite Hag; [exact Hn | left].
  - apply repr_TN in Hr as [Hn Hc]. apply repr_TN. split.
    + rewrite Hag; [exact Hn | left].
    + rewrite Forall_forall in Hc, IH |- *. intros c Hin.
      apply IH; [exact Hin | apply Hc, Hin |].
      intros x Hx. apply Hag. right. apply elem_of_flat_map. eauto.
Qed.

Lemma Forall_repr_agree h h' par cs :
  Forall (repr h par) cs ->
  (forall x, x ∈ flat_map ids cs -> h' !! x = h !! x) ->
  Forall (repr h' par) cs.
Proof.
  rewrite !Forall_forall. intros Hc Hag c Hin. eapply repr_agree; [apply Hc, Hin|].
  intros x Hx. apply Hag, elem_of_flat_map. eauto.
Qed.

Lemma ctx_ok_agree h h' par p hid hs :
  ctx_ok h par p hid hs ->
  (forall x, x ∈ ctx_ids p -> h' !! x = h !! x) ->
  ctx_ok h' par p hid hs.
Proof.
  revert hid hs. induction p as [|f p IH]; intros hid hs Hc Hag; [exact I|].
  destruct Hc as (Hn & Hs & Hp). unfold ctx_ids in Hag. simpl in Hag.
  split; [|split].
  - rewrite Hag; [exact Hn | left].
  - eapply Forall_repr_agree; [exact Hs|]. intros x Hx. apply Hag.
    apply elem_of_cons. right. apply elem_of_app. left. rewrite flat_map_app in Hx. exact Hx.
  - apply IH; [exact Hp|]. intros x Hx. apply Hag.
    apply elem_of_cons. right. apply elem_of_app. right. exact Hx.
Qed.

Lemma repr_values_number h par t :
  repr h par t -> values_number_of h (rid t) = size t.
Proof.
  destruct t as [id vs | id ks cs]; simpl.
  - intros (nx & pv & Hn). unfold values_number_of. rewrite Hn. reflexivity.
  - intros [Hn _]. unfold values_number_of. rewrite Hn. reflexivity.
Qed.

Lemma elems_TN id ks cs : elems (TN id ks cs) = flat_map elems cs.
Proof. reflexivity. Qed.

Lemma elems_plug_eq t1 t2 p : elems t1 = elems t2 -> elems (plug t1 p) = elems (plug t2 p).
Proof.
  revert t1 t2. induction p as [|f p IH]; intros t1 t2 E; [exact E|]. cbn [plug].
  apply IH. rewrite !elems_TN, !flat_map_app. cbn [flat_map]. rewrite E. reflexivity.
Qed.

Lemma elems_plug_perm t1 t2 X p :
  elems t1 ≡ₚ X ++ elems t2 -> elems (plug t1 p) ≡ₚ X ++ elems (plug t2 p).
Proof.
  revert t1 t2. induction p as [|f p IH]; intros t1 t2 E; [exact E|]. cbn [plug].
  apply IH. rewrite !elems_TN, !flat_map_app. cbn [flat_map]. rewrite E. solve_Permutation.
Qed.

Lemma size_elems t : size t = length (elems t).
Proof.
  induction t as [id vs | id ks cs IH] using tr_ind'; [reflexivity|].
  rewrite size_TN, elems_TN. induction cs as [|c cs IHcs]; [reflexivity|].
  apply Forall_cons in IH as [H1 H2]. rewrite sizes_cons. cbn [flat_map].
  rewrite length_app, H1, IHcs by exact H2. reflexivity.
Qed.

End AbstractTree.

(** ** Stepping through the monad *)

Section MonadSteps.

Lemma bind_ok {A B} (m : M A) (k : A -> M B) s x s' :
  m s = Some (x, s') -> bind m k s = k x s'.
Proof. intros H. unfold bind. rewrite H. reflexivity. Qed.

Lemma get_node_ok s id n : heap s !! id = Some n -> get_node id s = Some (n, s).
Proof. intros H. unfold get_node. rewrite H. reflexivity. Qed.

Lemma get_leaf_ok s id l : heap s !! id = Some (Leaf l) -> get_leaf id s = Some (l, s).
Proof. intros H. unfold get_leaf. rewrite (bind_ok _ _ _ _ _ (get_node_ok _ _ _ H)). reflexivity. Qed.

Lemma get_subtree_ok s id st :
  heap s !! id = Some (SubTree st) -> get_subtree id s = Some (st, s).
Proof. intros H. unfold get_subtree. rewrite (bind_ok _ _ _ _ _ (get_node_ok _ _ _ H)). reflexivity. Qed.

Lemma put_node_ok s id n :
  put_node id n s = Some (tt, mkBTree (<[id := n]> (heap s)) (next_id s) (root s)).
Proof. reflexivity. Qed.

Lemma alloc_ok s n :
  alloc n s = Some (next_id s, mkBTree (<[next_id s := n]> (heap s)) (S (next_id s)) (root s)).
Proof. reflexivity. Qed.

Lemma lift_ok {A} (x : A) s : lift (Some x) s = Some (x, s).
Proof. reflexivity. Qed.

Lemma set_parent_ok s id n p :
  heap s !! id = Some n ->
  set_parent id p s = Some (tt, mkBTree (<[id := node_set_parent n p]> (heap s)) (next_id s) (root s)).
Proof. intros H. unfold set_parent. rewrite (bind_ok _ _ _ _ _ (get_node_ok _ _ _ H)). reflexivity. Qed.

Lemma sum_values_number_ok s cs :
  sum_values_number cs s = Some (list_sum (map (values_number_of (heap s)) cs), s).
Proof.
  unfold sum_values_number. f_equal. f_equal.
  induction cs as [|c cs IH]; simpl; [reflexivity|]. rewrite IH. reflexivity.
Qed.

Lemma subtree_new_ok s cs p ks :
  subtree_new cs p ks s
  = Some (mkSubTree cs p ks (list_sum (map (values_number_of (heap s)) cs)), s).
Proof. unfold subtree_new. rewrite (bind_ok _ _ _ _ _ (sum_values_number_ok _ _)). reflexivity. Qed.

End MonadSteps.

(** Rewrite the first action of the goal with the given step. *)
Ltac run H := rewrite (bind_ok _ _ _ _ _ H); cbv beta.

(** ** Sorting, list surgery *)

Section Lists.

Lemma length_insert_sorted x l : length (insert_sorted x l) = S (length l).
Proof.
  induction l as [|y l IH]; simpl; [reflexivity|].
  destruct (x <=? y); simpl; [reflexivity | rewrite IH; reflexivity].
Qed.

Lemma length_sort_values l : length (sort_values l) = length l.
Proof.
  induction l as [|x l IH]; simpl; [reflexivity|].
  rewrite length_insert_sorted, IH. reflexivity.
Qed.

Lemma HdRel_insert_sorted y x l :
  y <= x -> HdRel Z.le y l -> HdRel Z.le y (insert_sorted x l).
Proof.
  intros Hyx Hd. destruct l as [|z l]; simpl; [constructor; exact Hyx|].
  destruct (x <=? z); constructor; [exact Hyx|]. inversion Hd; assumption.
Qed.

Lemma insert_sorted_sorted x l : Sorted Z.le l -> Sorted Z.le (insert_sorted x l).
Proof.
  induction l as [|y l IH]; simpl; intros Hs.
  - constructor; constructor.
  - destruct (Z.leb_spec x y) as [Hxy|Hxy].
    + constructor; [exact Hs | constructor; exact Hxy].
    + apply Sorted_inv in Hs as [Hs Hd]. constructor; [apply IH, Hs|].
      apply HdRel_insert_sorted; [lia | exact Hd].
Qed.

Lemma sort_values_sorted l : Sorted Z.le (sort_values l).
Proof.
  induction l as [|x l IH]; simpl; [constructor|]. apply insert_sorted_sorted, IH.
Qed.

Lemma firstn_length_app {A} (L l : list A) n :
  firstn (length L + n) (L ++ l) = L ++ firstn n l.
Proof. induction L as [|y L IH]; simpl; [reflexivity | rewrite IH; reflexivity]. Qed.

Lemma skipn_length_app {A} (L l : list A) n :
  skipn (length L + n) (L ++ l) = skipn n l.
Proof. induction L as [|y L IH]; simpl; [reflexivity | exact IH]. Qed.

Lemma vec_remove_mid (L R : list nat) x :
  vec_remove (L ++ x :: R) (length L) = Some (L ++ R).
Proof.
  unfold vec_remove. rewrite length_app. cbn [length].
  destruct (Nat.ltb_spec (length L) (length L + S (length R))) as [_|H]; [|lia].
  pose proof (firstn_length_app L (x :: R) 0) as E1. rewrite Nat.add_0_r in E1.
  pose proof (skipn_length_app L (x :: R) 1) as E2. rewrite Nat.add_1_r in E2.
  rewrite E1, E2. cbn [firstn skipn]. rewrite app_nil_r. reflexivity.
Qed.

Lemma vec_insert_mid (L R : list nat) a :
  vec_insert (L ++ R) (length L) a = Some (L ++ a :: R).
Proof.
  unfold vec_insert. rewrite length_app.
  destruct (Nat.leb_spec (length L) (length L + length R)) as [_|H]; [|lia].
  pose proof (firstn_length_app L R 0) as E1. rewrite Nat.add_0_r in E1.
  pose proof (skipn_length_app L R 0) as E2. rewrite Nat.add_0_r in E2.
  rewrite E1, E2. cbn [firstn skipn]. rewrite app_nil_r. reflexivity.
Qed.

Lemma replace_child_ok (L R : list nat) x a b :
  replace_child (L ++ x :: R) (length L) a b = Some (L ++ a :: b :: R).
Proof.
  unfold replace_child. rewrite vec_remove_mid, vec_insert_mid.
  replace (L ++ a :: R) with ((L ++ [a]) ++ R) by (rewrite <- app_assoc; reflexivity).
  replace (S (length L)) with (length (L ++ [a])) by (rewrite length_app; simpl; lia).
  rewrite vec_insert_mid. rewrite <- app_assoc. reflexivity.
Qed.

Lemma position_app (L R : list nat) x :
  x ∉ L -> position (Nat.eqb x) (L ++ x :: R) = Some (length L).
Proof.
  induction L as [|y L IH]; intros Hx; simpl.
  - rewrite Nat.eqb_refl. reflexivity.
  - destruct (Nat.eqb_spec x y) as [->|Hne].
    + exfalso. apply Hx. left.
    + rewrite IH; [reflexivity|]. intros Hin. apply Hx. right. exact Hin.
Qed.

Lemma NoDup_bound (l : list nat) n :
  NoDup l -> (forall x, x ∈ l -> (x < n)%nat) -> (length l <= n)%nat.
Proof.
  intros Hnd Hlt. rewrite <- (length_seq n 0).
  apply NoDup_incl_length; [apply NoDup_ListNoDup, Hnd|]. intros x Hx.
  apply in_seq. split; [lia|]. simpl. apply Hlt. apply list_elem_of_In. exact Hx.
Qed.

Lemma insert_sorted_perm x l : insert_sorted x l ≡ₚ x :: l.
Proof.
  induction l as [|y l IH]; [reflexivity|]. cbn [insert_sorted].
  destruct (x <=? y); [reflexivity|]. rewrite IH. constructor.
Qed.

Lemma sort_values_perm l : sort_values l ≡ₚ l.
Proof.
  induction l as [|x l IH]; [reflexivity|]. unfold sort_values in *. cbn [fold_right].
  rewrite insert_sorted_perm, IH. reflexivity.
Qed.

End Lists.

(** ** The side invariants: leaf links, fresh handles *)

Section HeapInvariants.

Lemma leaf_link_insert h x n o :
  leaf_link h o ->
  (forall l0, h !! x = Some (Leaf l0) -> is_leaf n = true) ->
  leaf_link (<[x := n]> h) o.
Proof.
  destruct o as [y|]; simpl; [|auto]. intros [l Hl] Hx.
  destruct (decide (x = y)) as [->|Hne].
  - rewrite lookup_insert_eq. specialize (Hx _ Hl).
    destruct n as [l'|st]; [exists l'; reflexivity | discriminate].
  - rewrite lookup_insert_ne by exact Hne. exists l. exact Hl.
Qed.

Lemma links_ok_insert h x n :
  links_ok h ->
  (forall l0, h !! x = Some (Leaf l0) -> is_leaf n = true) ->
  (forall l, n = Leaf l -> leaf_link h (next_leaf l) /\ leaf_link h (previous_leaf l)) ->
  links_ok (<[x := n]> h).
Proof.
  intros Hok Hx Hn y l Hy. destruct (decide (x = y)) as [->|Hne].
  - rewrite lookup_insert_eq in Hy. injection Hy as ->.
    destruct (Hn l eq_refl) as [H1 H2]. split; apply leaf_link_insert; auto.
  - rewrite lookup_insert_ne in Hy by exact Hne. destruct (Hok _ _ Hy) as [H1 H2].
    split; apply leaf_link_insert; auto.
Qed.

Lemma links_ok_put_subtree h x st st' :
  links_ok h -> h !! x = Some (SubTree st) -> links_ok (<[x := SubTree st']> h).
Proof.
  intros Hok Hx. apply links_ok_insert; [exact Hok | | discriminate].
  intros l0 Hl. rewrite Hx in Hl. discriminate.
Qed.

Lemma links_ok_alloc_subtree h x st :
  links_ok h -> h !! x = None -> links_ok (<[x := SubTree st]> h).
Proof.
  intros Hok Hx. apply links_ok_insert; [exact Hok | | discriminate].
  intros l0 Hl. rewrite Hx in Hl. discriminate.
Qed.

Lemma links_ok_set_parent h x n p :
  links_ok h -> h !! x = Some n -> links_ok (<[x := node_set_parent n p]> h).
Proof.
  intros Hok Hx. apply links_ok_insert; [exact Hok | |].
  - intros l0 Hl. rewrite Hx in Hl. injection Hl as ->. reflexivity.
  - intros l E. destruct n as [l1|st]; [|discriminate]. injection E as <-.
    exact (Hok _ _ Hx).
Qed.

Lemma fresh_none s : fresh_ok s -> heap s !! next_id s = None.
Proof.
  intros Hf. destruct (heap s !! next_id s) as [n|] eqn:E; [|reflexivity].
  apply Hf in E. lia.
Qed.

Lemma fresh_put s x n n0 r :
  fresh_ok s -> heap s !! x = Some n0 ->
  fresh_ok (mkBTree (<[x := n]> (heap s)) (next_id s) r).
Proof.
  intros Hf Hx y m Hy. simpl in *. destruct (decide (x = y)) as [->|Hne].
  - exact (Hf _ _ Hx).
  - rewrite lookup_insert_ne in Hy by exact Hne. exact (Hf _ _ Hy).
Qed.

Lemma fresh_alloc s n r :
  fresh_ok s -> fresh_ok (mkBTree (<[next_id s := n]> (heap s)) (S (next_id s)) r).
Proof.
  intros Hf y m Hy. simpl in *. destruct (decide (next_id s = y)) as [->|Hne]; [lia|].
  rewrite lookup_insert_ne in Hy by exact Hne. specialize (Hf _ _ Hy). lia.
Qed.

End HeapInvariants.

(** Rewrite the first action of the goal, its step discharged by [tac]. *)
Ltac step tac := erewrite bind_ok by tac; cbv beta.

(** ** Counting up the parent links *)

Section CountUpdate.

Lemma ctx_ids_cons f p :
  ctx_ids (f :: p) = fr_id f :: (flat_map ids (fr_left f) ++ flat_map ids (fr_right f)) ++ ctx_ids p.
Proof. reflexivity. Qed.

Lemma map_fr_id_ctx_ids x p : x ∈ map fr_id p -> x ∈ ctx_ids p.
Proof.
  induction p as [|f p IH]; intros Hx; [inversion Hx|]. rewrite ctx_ids_cons.
  apply elem_of_cons in Hx as [->|Hx]; [left|]. right. apply elem_of_app. right. auto.
Qed.

Lemma upv_spec p : forall f fuel hid hs s,
  ctx_ok (heap s) None (f :: p) hid hs ->
  NoDup (ctx_ids (f :: p)) ->
  (length (f :: p) <= fuel)%nat ->
  links_ok (heap s) -> fresh_ok s ->
  exists h', update_parent_value_number fuel (fr_id f) s = Some (tt, mkBTree h' (next_id s) (root s))
    /\ ctx_ok h' None (f :: p) hid (S hs)
    /\ (forall x, x ∉ map fr_id (f :: p) -> h' !! x = heap s !! x)
    /\ links_ok h' /\ fresh_ok (mkBTree h' (next_id s) (root s)).
Proof.
  induction p as [|f' p IH]; intros f fuel hid hs s Hc Hnd Hfu Hl Hf;
    (destruct fuel as [|fuel]; [simpl in Hfu; lia|]);
    destruct Hc as (Hn & Hs & Hp); cbn [update_parent_value_number];
    step ltac:(apply get_subtree_ok, Hn); step ltac:(apply put_node_ok);
    step ltac:(apply get_subtree_ok, lookup_insert_eq); cbn [subtree_parent hole_par set_values_number values_number];
    rewrite ctx_ids_cons in Hnd; apply NoDup_cons in Hnd as [Hni Hnd];
    rewrite elem_of_app in Hni.
  - eexists. split; [reflexivity|]. split; [|split; [|split]].
    + split; [|split; [|exact I]].
      * rewrite lookup_insert_eq. do 3 f_equal. lia.
      * eapply Forall_repr_agree; [exact Hs|]. intros x Hx.
        rewrite lookup_insert_ne; [reflexivity|]. intros <-. apply Hni. left.
        rewrite flat_map_app in Hx. exact Hx.
    + intros x Hx. rewrite lookup_insert_ne; [reflexivity|]. intros <-. apply Hx. left.
    + eapply links_ok_put_subtree; eassumption.
    + eapply fresh_put with (s := s); eassumption.
  - cbn [hole_par subtree_parent].
    assert (Hp1 : ctx_ok (<[fr_id f := SubTree (mkSubTree (map rid (fr_left f) ++ hid :: map rid (fr_right f))
               (hole_par None (f' :: p)) (fr_keys f) (S (sizes (fr_left f) + hs + sizes (fr_right f))))]> (heap s))
               None (f' :: p) (fr_id f) (sizes (fr_left f) + hs + sizes (fr_right f))).
    { eapply ctx_ok_agree; [exact Hp|]. intros x Hx. rewrite lookup_insert_ne; [reflexivity|].
      intros <-. apply Hni. right. exact Hx. }
    apply NoDup_app in Hnd as (Hnd1 & Hdisj & Hnd2).
    destruct (IH f' fuel (fr_id f) (sizes (fr_left f) + hs + sizes (fr_right f))%nat (mkBTree _ (next_id s) (root s))
                 Hp1 Hnd2) as (h' & Hrun & Hctx & Hag & Hl' & Hf').
    { simpl in Hfu |- *. lia. }
    { eapply links_ok_put_subtree; eassumption. }
    { eapply fresh_put with (s := s); eassumption. }
    cbn [heap next_id root] in Hag, Hf'. exists h'. split; [exact Hrun|].
    assert (Hag' : forall x, x ∉ map fr_id (f :: f' :: p) -> h' !! x = heap s !! x).
    { intros x Hx. rewrite Hag by (intros Hin; apply Hx; right; exact Hin).
      rewrite lookup_insert_ne; [reflexivity|]. intros <-. apply Hx. left. }
    split; [|split; [exact Hag'|split; [exact Hl'|exact Hf']]].
    split; [|split].
    + rewrite Hag by (intros Hin; apply Hni; right; apply map_fr_id_ctx_ids, Hin).
      rewrite lookup_insert_eq. do 3 f_equal. lia.
    + eapply Forall_repr_agree; [exact Hs|]. intros x Hx. rewrite flat_map_app in Hx.
      apply Hag'. intros Hin. apply elem_of_cons in Hin as [->|Hin].
      * apply Hni. left. exact Hx.
      * apply (Hdisj x Hx). apply map_fr_id_ctx_ids, Hin.
    + replace (sizes (fr_left f) + S hs + sizes (fr_right f))%nat
        with (S (sizes (fr_left f) + hs + sizes (fr_right f))) by lia.
      exact Hctx.
Qed.

End CountUpdate.

(** ** Re-parenting children *)

Section Parents.

Lemma repr_lookup h par t : repr h par t -> exists n, h !! rid t = Some n.
Proof.
  destruct t as [id vs | id ks cs]; simpl.
  - intros (nx & pv & Hn). eauto.
  - intros [Hn _]. eauto.
Qed.

Lemma rid_in_flat_map c cs : c ∈ cs -> rid c ∈ flat_map ids cs.
Proof. intros Hc. apply elem_of_flat_map. exists c. split; [exact Hc | apply rid_in_ids]. Qed.

Lemma map_rid_in_flat_map x cs : x ∈ map rid cs -> x ∈ flat_map ids cs.
Proof.
  intros Hx. apply list_elem_of_fmap in Hx as (c & -> & Hc). apply rid_in_flat_map, Hc.
Qed.

Lemma repr_set_parent h par q t n :
  repr h par t -> h !! rid t = Some n -> NoDup (ids t) ->
  repr (<[rid t := node_set_parent n q]> h) q t.
Proof.
  destruct t as [id vs | id ks cs]; intros Hr Hn Hnd.
  - destruct Hr as (nx & pv & Hl). simpl in Hn. rewrite Hl in Hn. injection Hn as <-.
    exists nx, pv. simpl. rewrite lookup_insert_eq. reflexivity.
  - apply repr_TN in Hr as [Hl Hc]. simpl in Hn. rewrite Hl in Hn. injection Hn as <-.
    apply repr_TN. split; [simpl; rewrite lookup_insert_eq; reflexivity|].
    rewrite ids_TN in Hnd. apply NoDup_cons in Hnd as [Hni _].
    eapply Forall_repr_agree; [exact Hc|]. intros x Hx. simpl.
    rewrite lookup_insert_ne; [reflexivity|]. intros <-. exact (Hni Hx).
Qed.

Lemma set_parents_spec cs : forall s par q,
  Forall (repr (heap s) par) cs -> NoDup (flat_map ids cs) ->
  links_ok (heap s) -> fresh_ok s ->
  exists h', set_parents (map rid cs) q s = Some (tt, mkBTree h' (next_id s) (root s))
    /\ Forall (repr h' q) cs
    /\ (forall x, x ∉ map rid cs -> h' !! x = heap s !! x)
    /\ links_ok h' /\ fresh_ok (mkBTree h' (next_id s) (root s)).
Proof.
  induction cs as [|c cs IH]; intros s par q Hr Hnd Hl Hf.
  - exists (heap s). split; [destruct s; reflexivity|]. split; [constructor|].
    split; [reflexivity|]. split; [exact Hl|]. destruct s; exact Hf.
  - apply Forall_cons in Hr as [Hrc Hrs]. simpl in Hnd. apply NoDup_app in Hnd as (Hndc & Hdisj & Hnds).
    destruct (repr_lookup _ _ _ Hrc) as [n Hn].
    cbn [map set_parents]. step ltac:(apply set_parent_ok, Hn).
    destruct (IH (mkBTree (<[rid c := node_set_parent n q]> (heap s)) (next_id s) (root s)) par q)
      as (h' & Hrun & Hrs' & Hag & Hl' & Hf'); cbn [heap next_id root] in *.
    + eapply Forall_repr_agree; [exact Hrs|]. intros x Hx.
      rewrite lookup_insert_ne; [reflexivity|]. intros <-. exact (Hdisj _ (rid_in_ids c) Hx).
    + exact Hnds.
    + eapply links_ok_set_parent; eassumption.
    + eapply fresh_put with (s := s); eassumption.
    + exists h'. split; [exact Hrun|]. split; [|split; [|split; [exact Hl' | exact Hf']]].
      * constructor; [|exact Hrs'].
        eapply repr_agree; [eapply repr_set_parent; eassumption|]. intros x Hx.
        apply Hag. intros Hin. exact (Hdisj _ Hx (map_rid_in_flat_map _ _ Hin)).
      * intros x Hx. rewrite Hag by (intros Hin; apply Hx; right; exact Hin).
        rewrite lookup_insert_ne; [reflexivity|]. intros <-. apply Hx. left.
Qed.

End Parents.

(** ** Splitting an internal node with four children *)

Section Split.

Lemma repr_ids_in h par t x : repr h par t -> x ∈ ids t -> exists n, h !! x = Some n.
Proof.
  revert par. induction t as [id vs | id ks cs IH] using tr_ind'; intros par Hr Hx.
  - destruct Hr as (nx & pv & Hn). apply list_elem_of_singleton in Hx as ->. eauto.
  - apply repr_TN in Hr as [Hn Hc]. rewrite ids_TN in Hx. apply elem_of_cons in Hx as [->|Hx]; [eauto|].
    apply elem_of_flat_map in Hx as (c & Hc' & Hx). rewrite Forall_forall in IH, Hc.
    exact (IH c Hc' _ (Hc c Hc') Hx).
Qed.

Lemma repr_ids_fresh s par t x :
  fresh_ok s -> repr (heap s) par t -> x ∈ ids t -> (x < next_id s)%nat.
Proof. intros Hf Hr Hx. destruct (repr_ids_in _ _ _ _ Hr Hx) as [n Hn]. exact (Hf _ _ Hn). Qed.

Lemma Forall_repr_fresh s par cs x :
  fresh_ok s -> Forall (repr (heap s) par) cs -> x ∈ flat_map ids cs -> (x < next_id s)%nat.
Proof.
  intros Hf Hr Hx. apply elem_of_flat_map in Hx as (c & Hc & Hx).
  rewrite Forall_forall in Hr. exact (repr_ids_fresh _ _ _ _ Hf (Hr c Hc) Hx).
Qed.

Lemma split_run sid par c0 c1 c2 c3 k0 k1 k2 (K : nat -> nat -> Z -> M unit) s :
  Forall (repr (heap s) (Some sid)) [c0;c1;c2;c3] ->
  NoDup (flat_map ids [c0;c1;c2;c3]) ->
  links_ok (heap s) -> fresh_ok s ->
  exists h',
    (let* cs1 := lift (slice_to (map rid [c0;c1;c2;c3]) 2) in
     let* k := lift (nth_error [k0;k1;k2] 0) in
     let* st1 := subtree_new cs1 par [k] in
     let* first_subtree := alloc (SubTree st1) in
     set_parents cs1 (Some first_subtree) ;;
     let* cs2 := lift (slice_from (map rid [c0;c1;c2;c3]) 2) in
     let* k' := lift (nth_error [k0;k1;k2] 2) in
     let* st2 := subtree_new cs2 par [k'] in
     let* second_subtree := alloc (SubTree st2) in
     set_parents cs2 (Some second_subtree) ;;
     let* k'' := lift (nth_error [k0;k1;k2] 1) in
     K first_subtree second_subtree k'') s
    = K (next_id s) (S (next_id s)) k1 (mkBTree h' (S (S (next_id s))) (root s))
    /\ repr h' par (TN (next_id s) [k0] [c0;c1])
    /\ repr h' par (TN (S (next_id s)) [k2] [c2;c3])
    /\ (forall x, x ∉ next_id s :: S (next_id s) :: map rid [c0;c1;c2;c3] -> h' !! x = heap s !! x)
    /\ links_ok h' /\ fresh_ok (mkBTree h' (S (S (next_id s))) (root s)).
Proof.
  destruct s as [h N r]; cbn [heap next_id root]. intros Hr Hnd Hl Hf.
  cbn [slice_to slice_from map length firstn skipn nth_error Nat.leb].
  step ltac:(apply lift_ok). step ltac:(apply lift_ok). step ltac:(apply subtree_new_ok).
  step ltac:(apply alloc_ok). cbn [heap next_id root].
  assert (Hlt : forall x, x ∈ flat_map ids [c0;c1;c2;c3] -> (x < N)%nat)
    by (intros x Hx; exact (Forall_repr_fresh _ _ _ _ Hf Hr Hx)).
  pose proof Hnd as Hnd'. change [c0;c1;c2;c3] with ([c0;c1] ++ [c2;c3]) in Hnd', Hlt, Hr.
  rewrite flat_map_app in Hnd', Hlt. apply NoDup_app in Hnd' as (HndA & Hdisj & HndB).
  apply Forall_app in Hr as [HrA HrB].
  assert (HltA : forall x, x ∈ flat_map ids [c0;c1] -> (x < N)%nat)
    by (intros x Hx; apply Hlt, elem_of_app; left; exact Hx).
  assert (HltB : forall x, x ∈ flat_map ids [c2;c3] -> (x < N)%nat)
    by (intros x Hx; apply Hlt, elem_of_app; right; exact Hx).
  (* the first new node *)
  pose proof (fresh_none _ Hf) as HN. cbn [heap next_id] in HN.
  assert (Hv : forall h0 cs, Forall (repr h0 (Some sid)) cs ->
            list_sum (map (values_number_of h0) (map rid cs)) = sizes cs).
  { intros h0 cs Hc. induction cs as [|c cs IH]; [reflexivity|].
    apply Forall_cons in Hc as [Hc1 Hc2].
    transitivity (values_number_of h0 (rid c) + list_sum (map (values_number_of h0) (map rid cs)))%nat;
      [reflexivity|].
    rewrite (repr_values_number _ _ _ Hc1), IH by exact Hc2. rewrite sizes_cons. reflexivity. }
  change [rid c0; rid c1] with (map rid [c0;c1]). rewrite (Hv h _ HrA).
  set (h2 := <[N := _]> h).
  destruct (set_parents_spec [c0;c1] (mkBTree h2 (S N) r) (Some sid) (Some N))
    as (h3 & Hrun3 & Hr3 & Hag3 & Hl3 & Hf3); cbn [heap next_id root] in *.
  { eapply Forall_repr_agree; [exact HrA|]. intros x Hx. unfold h2.
    rewrite lookup_insert_ne; [reflexivity|]. specialize (HltA x Hx). lia. }
  { exact HndA. }
  { apply links_ok_alloc_subtree; assumption. }
  { exact (fresh_alloc (mkBTree h N r) _ r Hf). }
  step ltac:(exact Hrun3). step ltac:(apply lift_ok). step ltac:(apply lift_ok).
  step ltac:(apply subtree_new_ok). step ltac:(apply alloc_ok). cbn [heap next_id root].
  assert (HrB3 : Forall (repr h3 (Some sid)) [c2;c3]).
  { eapply Forall_repr_agree; [exact HrB|]. intros x Hx. rewrite Hag3.
    - unfold h2. rewrite lookup_insert_ne; [reflexivity|]. specialize (HltB x Hx). lia.
    - intros Hin. apply (Hdisj x (map_rid_in_flat_map _ _ Hin) Hx). }
  change [rid c2; rid c3] with (map rid [c2;c3]). rewrite (Hv h3 _ HrB3).
  pose proof (fresh_none _ Hf3) as HSN. cbn [heap next_id] in HSN.
  set (h4 := <[S N := _]> h3).
  destruct (set_parents_spec [c2;c3] (mkBTree h4 (S (S N)) r) (Some sid) (Some (S N)))
    as (h5 & Hrun5 & Hr5 & Hag5 & Hl5 & Hf5); cbn [heap next_id root] in *.
  { eapply Forall_repr_agree; [exact HrB3|]. intros x Hx. unfold h4.
    rewrite lookup_insert_ne; [reflexivity|]. specialize (HltB x Hx). lia. }
  { exact HndB. }
  { apply links_ok_alloc_subtree; assumption. }
  { exact (fresh_alloc (mkBTree h3 (S N) r) _ r Hf3). }
  step ltac:(exact Hrun5). step ltac:(apply lift_ok).
  assert (Hag : forall x, x ∉ N :: S N :: map rid [c0;c1;c2;c3] -> h5 !! x = h !! x).
  { intros x Hx. rewrite elem_of_cons, elem_of_cons in Hx.
    change (map rid [c0;c1;c2;c3]) with (map rid [c0;c1] ++ map rid [c2;c3]) in Hx.
    rewrite elem_of_app in Hx.
    rewrite Hag5 by tauto. unfold h4. rewrite lookup_insert_ne by (intros <-; tauto).
    rewrite Hag3 by tauto. unfold h2. rewrite lookup_insert_ne by (intros <-; tauto). reflexivity. }
  exists h5. split; [reflexivity|]. split; [|split; [|split; [exact Hag|split; assumption]]].
  - apply repr_TN. split.
    + rewrite Hag5.
      * unfold h4. rewrite lookup_insert_ne by lia. rewrite Hag3.
        -- unfold h2. rewrite lookup_insert_eq. reflexivity.
        -- intros Hin. apply map_rid_in_flat_map, HltA in Hin. lia.
      * intros Hin. apply map_rid_in_flat_map, HltB in Hin. lia.
    + eapply Forall_repr_agree; [exact Hr3|]. intros x Hx. rewrite Hag5.
      * unfold h4. rewrite lookup_insert_ne; [reflexivity|]. specialize (HltA x Hx). lia.
      * intros Hin. exact (Hdisj x Hx (map_rid_in_flat_map _ _ Hin)).
  - apply repr_TN. split; [|exact Hr5].
    rewrite Hag5.
    + unfold h4. rewrite lookup_insert_eq. reflexivity.
    + intros Hin. apply map_rid_in_flat_map, HltB in Hin. lia.
Qed.

End Split.

(** ** A new root; the invariant around a context *)

Section NewRoot.

Lemma new_root_spec t1 t2 par1 par2 k s :
  repr (heap s) par1 t1 -> repr (heap s) par2 t2 -> NoDup (ids t1 ++ ids t2) ->
  links_ok (heap s) -> fresh_ok s ->
  exists h', new_root_after_division (rid t1) (rid t2) k s
      = Some (next_id s, mkBTree h' (S (next_id s)) (root s))
    /\ repr h' None (TN (next_id s) [k] [t1; t2])
    /\ (forall x, x ∉ [next_id s; rid t1; rid t2] -> h' !! x = heap s !! x)
    /\ links_ok h' /\ fresh_ok (mkBTree h' (S (next_id s)) (root s)).
Proof.
  destruct s as [h N r]; cbn [heap next_id root]. intros Hr1 Hr2 Hnd Hl Hf.
  apply NoDup_app in Hnd as (Hnd1 & Hdisj & Hnd2).
  assert (Hlt1 : forall x, x ∈ ids t1 -> (x < N)%nat) by (intros x; exact (repr_ids_fresh _ _ _ x Hf Hr1)).
  assert (Hlt2 : forall x, x ∈ ids t2 -> (x < N)%nat) by (intros x; exact (repr_ids_fresh _ _ _ x Hf Hr2)).
  pose proof (Hlt1 _ (rid_in_ids t1)) as H1. pose proof (Hlt2 _ (rid_in_ids t2)) as H2.
  assert (H12 : rid t1 <> rid t2) by (intros E; apply (Hdisj _ (rid_in_ids t1)); rewrite E; apply rid_in_ids).
  pose proof (fresh_none _ Hf) as HN. cbn [heap next_id] in HN.
  unfold new_root_after_division.
  step ltac:(apply subtree_new_ok). step ltac:(apply alloc_ok). cbn [heap next_id root].
  cbn [map list_sum]. rewrite (repr_values_number _ _ _ Hr1), (repr_values_number _ _ _ Hr2).
  set (h2 := <[N := _]> h).
  assert (Hr1' : repr h2 par1 t1).
  { eapply repr_agree; [exact Hr1|]. intros x Hx. unfold h2.
    rewrite lookup_insert_ne; [reflexivity|]. specialize (Hlt1 x Hx). lia. }
  assert (Hr2' : repr h2 par2 t2).
  { eapply repr_agree; [exact Hr2|]. intros x Hx. unfold h2.
    rewrite lookup_insert_ne; [reflexivity|]. specialize (Hlt2 x Hx). lia. }
  destruct (repr_lookup _ _ _ Hr1') as [n1 Hn1]. destruct (repr_lookup _ _ _ Hr2') as [n2 Hn2].
  step ltac:(apply set_parent_ok; exact Hn1). cbn [heap next_id root].
  set (h3 := <[rid t1 := _]> h2).
  assert (Hn2' : h3 !! rid t2 = Some n2) by (unfold h3; rewrite lookup_insert_ne by exact H12; exact Hn2).
  step ltac:(apply set_parent_ok; exact Hn2'). cbn [heap next_id root].
  set (h4 := <[rid t2 := _]> h3).
  assert (Hag : forall x, x ∉ [N; rid t1; rid t2] -> h4 !! x = h !! x).
  { intros x Hx. rewrite !elem_of_cons, elem_of_nil in Hx. unfold h4, h3, h2.
    rewrite !lookup_insert_ne by (intros <-; tauto). reflexivity. }
  eexists. split; [reflexivity|]. split; [|split; [exact Hag|split]].
  - apply repr_TN. split.
    + unfold h4, h3, h2. rewrite !lookup_insert_ne by lia. rewrite lookup_insert_eq. reflexivity.
    + constructor; [|constructor; [|constructor]].
      * eapply repr_agree; [eapply repr_set_parent; eassumption|]. intros x Hx. unfold h4.
        rewrite lookup_insert_ne; [reflexivity|]. intros <-. exact (Hdisj _ Hx (rid_in_ids t2)).
      * unfold h4. eapply repr_set_parent; [|exact Hn2'|exact Hnd2].
        eapply repr_agree; [exact Hr2'|]. intros x Hx. unfold h3.
        rewrite lookup_insert_ne; [reflexivity|]. intros <-. exact (Hdisj _ (rid_in_ids t1) Hx).
  - unfold h4, h3, h2. apply links_ok_set_parent; [apply links_ok_set_parent; [apply links_ok_alloc_subtree|]|]; assumption.
  - intros x n Hx. cbn [heap next_id] in *. unfold h4, h3, h2 in Hx.
    destruct (decide (x = rid t2)) as [->|?]; [lia|]. rewrite lookup_insert_ne in Hx by congruence.
    destruct (decide (x = rid t1)) as [->|?]; [lia|]. rewrite lookup_insert_ne in Hx by congruence.
    destruct (decide (x = N)) as [->|?]; [lia|]. rewrite lookup_insert_ne in Hx by congruence.
    specialize (Hf _ _ Hx). cbn [next_id] in Hf. lia.
Qed.

Lemma in_ctx_head f p : fr_id f ∈ ctx_ids (f :: p).
Proof. rewrite ctx_ids_cons. left. Qed.

Lemma in_ctx_sib f p x : x ∈ flat_map ids (fr_left f ++ fr_right f) -> x ∈ ctx_ids (f :: p).
Proof.
  intros Hx. rewrite ctx_ids_cons. right. apply elem_of_app. left.
  rewrite flat_map_app in Hx. exact Hx.
Qed.

Lemma in_ctx_tail f p x : x ∈ ctx_ids p -> x ∈ ctx_ids (f :: p).
Proof. intros Hx. rewrite ctx_ids_cons. right. apply elem_of_app. right. exact Hx. Qed.

Lemma in_TN_child id ks cs c x : c ∈ cs -> x ∈ ids c -> x ∈ ids (TN id ks cs).
Proof. intros Hc Hx. rewrite ids_TN. right. apply elem_of_flat_map. eauto. Qed.

Lemma ctx_ids_in h par p hid hs x :
  ctx_ok h par p hid hs -> x ∈ ctx_ids p -> exists n, h !! x = Some n.
Proof.
  revert hid hs. induction p as [|f p IH]; intros hid hs Hc Hx; [inversion Hx|].
  destruct Hc as (Hn & Hs & Hp). rewrite ctx_ids_cons in Hx.
  apply elem_of_cons in Hx as [->|Hx]; [eauto|]. apply elem_of_app in Hx as [Hx|Hx].
  - rewrite <- flat_map_app in Hx. apply elem_of_flat_map in Hx as (c & Hc & Hx).
    rewrite Forall_forall in Hs. exact (repr_ids_in _ _ _ _ (Hs c Hc) Hx).
  - exact (IH _ _ Hp Hx).
Qed.

Lemma tree_inv_plug s t p :
  root s = Some (rid (plug t p)) -> repr (heap s) (hole_par None p) t ->
  ctx_ok (heap s) None p (rid t) (size t) -> shape_ok t -> ctx_shape p ->
  NoDup (ids t ++ ctx_ids p) -> links_ok (heap s) -> fresh_ok s ->
  tree_inv s (plug t p).
Proof.
  intros Hroot Hr Hc Hs Hcs Hnd Hl Hf. unfold tree_inv.
  rewrite repr_plug, shape_plug, ids_plug. tauto.
Qed.

(** Storing new keys in the hole of a context. *)
Lemma keys_update_inv s sid ks keys cs p :
  heap s !! sid = Some (SubTree (mkSubTree (map rid cs) (hole_par None p) ks (sizes cs))) ->
  Forall (repr (heap s) (Some sid)) cs -> ctx_ok (heap s) None p sid (sizes cs) ->
  root s = Some (rid (plug (TN sid ks cs) p)) ->
  shape_ok (TN sid keys cs) -> ctx_shape p -> NoDup (ids (TN sid ks cs) ++ ctx_ids p) ->
  links_ok (heap s) -> fresh_ok s ->
  tree_inv (mkBTree (<[sid := SubTree (mkSubTree (map rid cs) (hole_par None p) keys (sizes cs))]> (heap s))
             (next_id s) (root s)) (plug (TN sid keys cs) p).
Proof.
  intros Hn Hc Hctx Hroot Hs Hcs Hnd Hl Hf. pose proof Hnd as Hnd0. rewrite ids_TN in Hnd.
  apply NoDup_cons in Hnd as [Hni Hnd]. rewrite elem_of_app in Hni.
  apply tree_inv_plug; cbn [heap root next_id].
  - rewrite Hroot. f_equal. apply rid_plug. reflexivity.
  - apply repr_TN. split; [apply lookup_insert_eq|].
    eapply Forall_repr_agree; [exact Hc|]. intros x Hx.
    rewrite lookup_insert_ne; [reflexivity|]. intros <-. tauto.
  - eapply ctx_ok_agree; [exact Hctx|]. intros x Hx.
    rewrite lookup_insert_ne; [reflexivity|]. intros <-. tauto.
  - exact Hs.
  - exact Hcs.
  - exact Hnd0.
  - eapply links_ok_put_subtree; eassumption.
  - eapply fresh_put with (s := s); eassumption.
Qed.

End NewRoot.

(** ** Pushing a middle key up: [insert_mid_key_to_parent_subtree] *)

Section MidKey.

Lemma run_eq (x y : option (unit * BTree)) (P : BTree -> tr -> Prop) :
  x = y -> (exists s' t, y = Some (tt, s') /\ P s' t) -> exists s' t, x = Some (tt, s') /\ P s' t.
Proof. intros ->. exact (fun H => H). Qed.

Lemma ctx_size_cons f p :
  ctx_size (f :: p) = (sizes (fr_left f) + sizes (fr_right f) + ctx_size p)%nat.
Proof. reflexivity. Qed.

Lemma lift_eq {A} (o : option A) x s : o = Some x -> lift o s = Some (x, s).
Proof. intros ->. reflexivity. Qed.

Lemma nodup_two_new N c0 c1 c2 c3 k0 k2 (X : list nat) :
  NoDup (flat_map ids [c0;c1;c2;c3] ++ X) ->
  (forall x, x ∈ flat_map ids [c0;c1;c2;c3] ++ X -> (x < N)%nat) ->
  NoDup (ids (TN N [k0] [c0;c1]) ++ ids (TN (S N) [k2] [c2;c3]) ++ X)
  /\ (forall x, x ∈ ids (TN N [k0] [c0;c1]) ++ ids (TN (S N) [k2] [c2;c3]) ++ X -> (x < S (S N))%nat).
Proof.
  intros Hnd Hlt.
  assert (E : ids (TN N [k0] [c0;c1]) ++ ids (TN (S N) [k2] [c2;c3]) ++ X
              ≡ₚ N :: S N :: (flat_map ids [c0;c1;c2;c3] ++ X))
    by (cbn [ids flat_map]; rewrite !app_nil_r; solve_Permutation).
  split.
  - rewrite E. apply NoDup_cons. split.
    + intros Hin. apply elem_of_cons in Hin as [Hin|Hin]; [lia|]. specialize (Hlt _ Hin). lia.
    + apply NoDup_cons. split; [|exact Hnd]. intros Hin. specialize (Hlt _ Hin). lia.
  - intros x Hx. rewrite E in Hx. apply elem_of_cons in Hx as [->|Hx]; [lia|].
    apply elem_of_cons in Hx as [->|Hx]; [lia|]. specialize (Hlt _ Hx). lia.
Qed.

Lemma imk_spec p : forall fuel sid ks cs k s,
  heap s !! sid = Some (SubTree (mkSubTree (map rid cs) (hole_par None p) ks (sizes cs))) ->
  Forall (repr (heap s) (Some sid)) cs ->
  ctx_ok (heap s) None p sid (sizes cs) ->
  root s = Some (rid (plug (TN sid ks cs) p)) ->
  length cs = (length ks + 2)%nat -> (1 <= length ks <= 2)%nat ->
  Forall shape_ok cs -> ctx_shape p ->
  NoDup (ids (TN sid ks cs) ++ ctx_ids p) ->
  links_ok (heap s) -> fresh_ok s ->
  (length p < fuel)%nat ->
  exists s' t, insert_mid_key_to_parent_subtree fuel sid k s = Some (tt, s')
    /\ tree_inv s' t /\ size t = (sizes cs + ctx_size p)%nat
    /\ elems t = elems (plug (TN sid ks cs) p).
Proof.
  induction p as [|f p IH]; intros fuel sid ks cs k s Hn Hc Hctx Hroot Hlen Hks Hsh Hcs Hnd Hl Hf Hfu;
    (destruct fuel as [|fuel]; [simpl in Hfu; lia|]); cbn [insert_mid_key_to_parent_subtree];
    step ltac:(apply get_subtree_ok, Hn); step ltac:(apply put_node_ok);
    cbn [set_mid_keys children subtree_parent mid_keys values_number heap next_id root];
    pose proof (length_sort_values (ks ++ [k])) as Hkl; rewrite length_app in Hkl; cbn [length] in Hkl;
    pose proof (sort_values_sorted (ks ++ [k])) as Hks';
    (assert (Hks2 : length ks = 1%nat \/ length ks = 2%nat) by lia);
    destruct Hks2 as [Hks1|Hks2].
  1,3: replace (length (sort_values (ks ++ [k])) <=? MAX_KEYS)%nat with true
         by (symmetry; apply Nat.leb_le; unfold MAX_KEYS; lia);
       eexists; eexists; split; [reflexivity|]; split;
       [ apply keys_update_inv with (ks := ks); try assumption; apply shape_TN; rewrite Hkl; split; [lia|split; [lia|split; assumption]]
       | split; [rewrite size_plug; reflexivity | apply elems_plug_eq; reflexivity] ].
  - (* the root splits *)
    destruct s as [h N r]; cbn [heap next_id root] in *.
    remember (sort_values (ks ++ [k])) as keys eqn:Ekeys.
    destruct keys as [|k0 [|k1 [|k2 [|k3 keys]]]]; cbn [length] in Hkl; try lia.
    destruct cs as [|c0 [|c1 [|c2 [|c3 [|c4 cs]]]]]; cbn [length] in Hlen; try lia.
    cbn [length MAX_KEYS Nat.leb].
    step ltac:(apply get_subtree_ok, lookup_insert_eq).
    cbn [set_mid_keys subtree_parent children mid_keys hole_par].
    unfold rebalance_root_after_mid_key_insertion.
    step ltac:(reflexivity). cbn [root].
    step ltac:(apply lift_eq, Hroot). cbn [plug rid]. step ltac:(apply get_subtree_ok, lookup_insert_eq).
    cbn [children mid_keys].
    pose proof Hnd as Hnd'. rewrite ids_TN in Hnd'. cbn [ctx_ids flat_map] in Hnd'.
    rewrite app_nil_r in Hnd'. apply NoDup_cons in Hnd' as [Hsid Hcsnd].
    assert (Hlt : forall x, x ∈ flat_map ids [c0;c1;c2;c3] -> (x < N)%nat)
      by (intros x Hx; exact (Forall_repr_fresh _ _ _ _ Hf Hc Hx)).
    set (h1 := <[sid := _]> h).
    destruct (split_run sid None c0 c1 c2 c3 k0 k1 k2
                (fun a b k1 => bind (new_root_after_division a b k1) set_root) (mkBTree h1 N r))
      as (h2 & Erun & HrA & HrB & Hag2 & Hl2 & Hf2); cbn [heap next_id root] in *.
    { eapply Forall_repr_agree; [exact Hc|]. intros x Hx. unfold h1.
      rewrite lookup_insert_ne; [reflexivity|]. intros <-. exact (Hsid Hx). }
    { exact Hcsnd. }
    { eapply links_ok_put_subtree; eassumption. }
    { exact (fresh_put (mkBTree h N r) sid _ _ r Hf Hn). }
    destruct (nodup_two_new N c0 c1 c2 c3 k0 k2 [])as [Hnd2 Hlt2];
      [rewrite app_nil_r; exact Hcsnd | intros x; rewrite app_nil_r; apply Hlt |].
    rewrite app_nil_r in Hnd2, Hlt2.
    destruct (new_root_spec (TN N [k0] [c0;c1]) (TN (S N) [k2] [c2;c3]) None None k1
                (mkBTree h2 (S (S N)) r) HrA HrB Hnd2 Hl2 Hf2)
      as (h3 & Enr & Hr3 & Hag3 & Hl3 & Hf3); cbn [heap next_id root] in *.
    eexists; exists (TN (S (S N)) [k1] [TN N [k0] [c0;c1]; TN (S N) [k2] [c2;c3]]); split.
    { etransitivity; [exact Erun|]. cbv beta. step ltac:(exact Enr). reflexivity. }
    split.
    + unfold tree_inv; cbn [heap next_id root rid]. split; [reflexivity|]. split; [exact Hr3|].
      split; [|split; [|split; assumption]].
      * apply Forall_cons in Hsh as [Hs0 Hsh]. apply Forall_cons in Hsh as [Hs1 Hsh].
        apply Forall_cons in Hsh as [Hs2 Hsh]. apply Forall_cons in Hsh as [Hs3 _].
        apply shape_TN. cbn [length]. split; [lia|]. split; [lia|]. split; [constructor; constructor|].
        constructor; [|constructor; [|constructor]]; apply shape_TN; cbn [length];
          (split; [lia|]; split; [lia|]; split; [constructor; constructor|]);
          repeat constructor; assumption.
      * rewrite ids_TN. cbn [flat_map]. rewrite app_nil_r. apply NoDup_cons. split; [|exact Hnd2].
        intros Hin. specialize (Hlt2 _ Hin). lia.
    + split; [unfold ctx_size, sizes; cbn; lia|].
      simpl. rewrite !app_nil_r, <- !app_assoc. reflexivity.
  - (* a node below the root splits; the grandparent takes the middle key *)
    destruct s as [h N r]; cbn [heap next_id root] in *.
    remember (sort_values (ks ++ [k])) as keys eqn:Ekeys.
    destruct keys as [|k0 [|k1 [|k2 [|k3 keys]]]]; cbn [length] in Hkl; try lia.
    destruct cs as [|c0 [|c1 [|c2 [|c3 [|c4 cs]]]]]; cbn [length] in Hlen; try lia.
    cbn [length MAX_KEYS Nat.leb].
    step ltac:(apply get_subtree_ok, lookup_insert_eq).
    cbn [set_mid_keys subtree_parent children mid_keys hole_par].
    set (gp := fr_id f). set (L := fr_left f). set (R := fr_right f).
    assert (HltC : forall x, x ∈ ctx_ids (f :: p) -> (x < N)%nat).
    { intros x Hx. destruct (ctx_ids_in _ _ _ _ _ _ Hctx Hx) as [n0 Hn0]. exact (Hf _ _ Hn0). }
    assert (HltT : forall x, x ∈ flat_map ids [c0;c1;c2;c3] -> (x < N)%nat)
      by (intros x Hx; exact (Forall_repr_fresh _ _ _ _ Hf Hc Hx)).
    destruct Hctx as (Hgp & HsLR & Hctx'). fold gp L R in Hgp, HsLR, Hctx'.
    pose proof Hnd as Hnd'. apply NoDup_app in Hnd' as (HndT & Hdisj & HndC).
    pose proof HndT as HndT'. rewrite ids_TN in HndT'. apply NoDup_cons in HndT' as [Hsid Hcsnd].
    pose proof HndC as HndC'. rewrite ctx_ids_cons in HndC'. apply NoDup_cons in HndC' as [Hgpn HndC''].
    fold gp L R in Hgpn, HndC''.
    assert (Hgpl : (gp < N)%nat) by (apply HltC, in_ctx_head).
    set (h1 := <[sid := _]> h).
    destruct (split_run sid (Some gp) c0 c1 c2 c3 k0 k1 k2
                (fun a b k1 =>
                   let* parent_tree := get_subtree gp in
                   let* idx := lift (position (Nat.eqb sid) (children parent_tree)) in
                   let* cs := lift (replace_child (children parent_tree) idx a b) in
                   put_node gp (SubTree (set_children parent_tree cs)) ;;
                   insert_mid_key_to_parent_subtree fuel gp k1) (mkBTree h1 N r))
      as (h2 & Erun & HrA & HrB & Hag2 & Hl2 & Hf2); cbn [heap next_id root] in *.
    { eapply Forall_repr_agree; [exact Hc|]. intros x Hx. unfold h1.
      rewrite lookup_insert_ne; [reflexivity|]. intros <-. exact (Hsid Hx). }
    { exact Hcsnd. }
    { eapply links_ok_put_subtree; eassumption. }
    { exact (fresh_put (mkBTree h N r) sid _ _ r Hf Hn). }
    eapply run_eq; [exact Erun|]. cbv beta.
    assert (Hsid_gp : sid <> gp).
    { intros E. apply (Hdisj sid); [rewrite ids_TN; left|]. rewrite E. apply in_ctx_head. }
    assert (Hgp2 : h2 !! gp = h !! gp).
    { rewrite Hag2.
      - unfold h1. rewrite lookup_insert_ne by exact Hsid_gp. reflexivity.
      - intros Hin. apply elem_of_cons in Hin as [Hin|Hin]; [lia|].
        apply elem_of_cons in Hin as [Hin|Hin]; [lia|].
        apply (Hdisj gp); [|apply in_ctx_head]. rewrite ids_TN. right. apply map_rid_in_flat_map, Hin. }
    rewrite Hgp in Hgp2.
    step ltac:(apply get_subtree_ok, Hgp2). cbn [children].
    assert (HsidL : sid ∉ map rid L).
    { intros Hin. apply (Hdisj sid); [rewrite ids_TN; left|]. apply in_ctx_sib.
      rewrite flat_map_app. apply elem_of_app. left. apply map_rid_in_flat_map, Hin. }
    step ltac:(apply lift_eq, position_app, HsidL).
    step ltac:(apply lift_eq, replace_child_ok).
    step ltac:(apply put_node_ok). cbn [heap next_id root set_children].
    set (t1 := TN N [k0] [c0;c1]). set (t2 := TN (S N) [k2] [c2;c3]).
    set (h4 := <[gp := _]> h2).
    assert (Hag4 : forall x, x <> gp -> x <> sid -> x <> N -> x <> S N ->
              x ∉ map rid [c0;c1;c2;c3] -> h4 !! x = h !! x).
    { intros x H1 H2 H3 H4 H5. unfold h4. rewrite lookup_insert_ne by congruence.
      rewrite Hag2.
      - unfold h1. rewrite lookup_insert_ne by congruence. reflexivity.
      - intros Hin. apply elem_of_cons in Hin as [Hin|Hin]; [congruence|].
        apply elem_of_cons in Hin as [Hin|Hin]; [congruence|]. exact (H5 Hin). }
    assert (Hout : forall x, x ∈ ctx_ids (f :: p) -> x <> gp -> h4 !! x = h !! x).
    { intros x Hx Hne. apply Hag4; [exact Hne| | | |].
      - intros ->. apply (Hdisj sid); [rewrite ids_TN; left | exact Hx].
      - specialize (HltC _ Hx). lia.
      - specialize (HltC _ Hx). lia.
      - intros Hin. apply (Hdisj x); [|exact Hx]. rewrite ids_TN. right. apply map_rid_in_flat_map, Hin. }
    assert (Hsz : sizes (L ++ t1 :: t2 :: R) = (sizes L + sizes [c0;c1;c2;c3] + sizes R)%nat).
    { unfold t1, t2. change [c0;c1;c2;c3] with ([c0;c1] ++ [c2;c3]).
      rewrite !sizes_app, !sizes_cons, !size_TN, !sizes_cons. lia. }
    assert (HgpT : forall x, x ∈ flat_map ids [c0;c1;c2;c3] -> x <> gp).
    { intros x Hx ->. apply (Hdisj gp); [|apply in_ctx_head]. rewrite ids_TN. right. exact Hx. }
    apply Forall_cons in Hcs as [Hfr Hcs']. destruct Hfr as (Hfr1 & Hfr2 & Hfr3 & Hfr4).
    fold L R in Hfr1, Hfr2, Hfr4.
    apply Forall_cons in Hsh as [Hs0 Hsh]. apply Forall_cons in Hsh as [Hs1 Hsh].
    apply Forall_cons in Hsh as [Hs2 Hsh]. apply Forall_cons in Hsh as [Hs3 _].
    destruct (IH fuel gp (fr_keys f) (L ++ t1 :: t2 :: R) k1 (mkBTree h4 (S (S N)) r))
      as (s' & t & Erun' & Hinv & Hsize & Helems); cbn [heap next_id root].
    + unfold h4. rewrite lookup_insert_eq. rewrite Hsz, map_app. reflexivity.
    + apply Forall_app in HsLR as [HsL HsR]. apply Forall_app. split; [|constructor; [|constructor]].
      * eapply Forall_repr_agree; [exact HsL|]. intros x Hx. apply Hout.
        -- apply in_ctx_sib. fold L R. rewrite flat_map_app. apply elem_of_app. left. exact Hx.
        -- intros ->. apply Hgpn. apply elem_of_app. left. apply elem_of_app. left. exact Hx.
      * eapply repr_agree; [exact HrA|]. intros x Hx. unfold h4.
        rewrite lookup_insert_ne; [reflexivity|]. intros <-.
        unfold t1 in Hx. rewrite ids_TN in Hx. apply elem_of_cons in Hx as [Hx|Hx]; [lia|].
        apply (HgpT gp); [|reflexivity]. change [c0;c1;c2;c3] with ([c0;c1] ++ [c2;c3]).
        rewrite flat_map_app. apply elem_of_app. left. exact Hx.
      * eapply repr_agree; [exact HrB|]. intros x Hx. unfold h4.
        rewrite lookup_insert_ne; [reflexivity|]. intros <-.
        unfold t2 in Hx. rewrite ids_TN in Hx. apply elem_of_cons in Hx as [Hx|Hx]; [lia|].
        apply (HgpT gp); [|reflexivity]. change [c0;c1;c2;c3] with ([c0;c1] ++ [c2;c3]).
        rewrite flat_map_app. apply elem_of_app. right. exact Hx.
      * eapply Forall_repr_agree; [exact HsR|]. intros x Hx. apply Hout.
        -- apply in_ctx_sib. fold L R. rewrite flat_map_app. apply elem_of_app. right. exact Hx.
        -- intros ->. apply Hgpn. apply elem_of_app. left. apply elem_of_app. right. exact Hx.
    + rewrite Hsz. eapply ctx_ok_agree; [exact Hctx'|]. intros x Hx. apply Hout.
      * apply in_ctx_tail, Hx.
      * intros ->. apply Hgpn. apply elem_of_app. right. exact Hx.
    + rewrite Hroot. cbn [plug]. f_equal. apply rid_plug. reflexivity.
    + rewrite length_app. cbn [length]. lia.
    + lia.
    + apply Forall_app in Hfr4 as [HfL HfR]. apply Forall_app. split; [exact HfL|].
      constructor; [|constructor; [|exact HfR]]; apply shape_TN; cbn [length];
        (split; [lia|]; split; [lia|]; split; [constructor; constructor|]);
        repeat constructor; assumption.
    + exact Hcs'.
    + destruct (nodup_two_new N c0 c1 c2 c3 k0 k2 (ctx_ids (f :: p))) as [HndN _].
      { rewrite ids_TN, <- app_comm_cons in Hnd. apply NoDup_cons in Hnd as [_ Hnd2]. exact Hnd2. }
      { intros x Hx. apply elem_of_app in Hx as [Hx|Hx]; [apply HltT, Hx | apply HltC, Hx]. }
      assert (E : ids (TN gp (fr_keys f) (L ++ t1 :: t2 :: R)) ++ ctx_ids p
                  ≡ₚ ids t1 ++ ids t2 ++ ctx_ids (f :: p)).
      { rewrite ids_TN, ctx_ids_cons, flat_map_app. cbn [flat_map]. fold gp L R. solve_Permutation. }
      rewrite E. exact HndN.
    + eapply links_ok_put_subtree; [exact Hl2 | exact Hgp2].
    + exact (fresh_put (mkBTree h2 (S (S N)) r) gp _ _ r Hf2 Hgp2).
    + cbn [length] in Hfu. lia.
    + exists s', t. split; [exact Erun'|]. split; [exact Hinv|].
      split; [rewrite Hsize, Hsz, ctx_size_cons; fold L R; lia|].
      rewrite Helems. cbn [plug]. apply elems_plug_eq. unfold t1, t2.
      rewrite !elems_TN, !flat_map_app. cbn [flat_map]. rewrite !elems_TN. cbn [flat_map].
      rewrite !app_nil_r, <- !app_assoc. reflexivity.
Qed.

End MidKey.

(** ** Leaf relinking changes only the links *)

Section Relink.

Lemma node_equiv_refl o : node_equiv o o.
Proof. left. reflexivity. Qed.

Lemma node_equiv_trans o1 o2 o3 : node_equiv o1 o2 -> node_equiv o2 o3 -> node_equiv o1 o3.
Proof.
  intros H12 H23.
  destruct H12 as [E12|(l1 & l2 & E1 & E2 & V12 & P12)];
    destruct H23 as [E23|(m2 & m3 & F2 & F3 & V23 & P23)].
  - left. congruence.
  - right. exists m2, m3. split; [congruence|]. auto.
  - right. exists l1, l2. split; [exact E1|]. split; [congruence|]. auto.
  - right. exists l1, m3. rewrite E2 in F2. injection F2 as <-.
    split; [exact E1|]. split; [exact F3|]. split; congruence.
Qed.

Lemma node_equiv_relink (h : gmap nat BTreeNode) x l l' :
  h !! x = Some (Leaf l) -> values l' = values l -> leaf_parent l' = leaf_parent l ->
  forall y, node_equiv (h !! y) (<[x := Leaf l']> h !! y).
Proof.
  intros Hx E1 E2 y. destruct (decide (x = y)) as [<-|Hne].
  - right. exists l, l'. rewrite lookup_insert_eq. auto.
  - left. rewrite lookup_insert_ne by exact Hne. reflexivity.
Qed.

Lemma repr_equiv h h' par t :
  repr h par t -> (forall x, x ∈ ids t -> node_equiv (h !! x) (h' !! x)) -> repr h' par t.
Proof.
  revert par. induction t as [id vs | id ks cs IH] using tr_ind'; intros par Hr Heq.
  - destruct Hr as (nx & pv & Hn). destruct (Heq id) as [E|(l & l' & E1 & E2 & E3 & E4)]; [left| |].
    + exists nx, pv. rewrite E. exact Hn.
    + rewrite Hn in E1. injection E1 as <-. cbn in E3, E4. destruct l' as [vs' par' nx' pv'].
      cbn in E3, E4. subst. exists nx', pv'. exact E2.
  - apply repr_TN in Hr as [Hn Hc]. apply repr_TN. split.
    + destruct (Heq id) as [E|(l & l' & E1 & _)]; [left| |].
      * rewrite E. exact Hn.
      * rewrite Hn in E1. discriminate.
    + rewrite Forall_forall in Hc, IH |- *. intros c Hin.
      apply IH; [exact Hin | apply Hc, Hin |].
      intros x Hx. apply Heq. right. apply elem_of_flat_map. eauto.
Qed.

Lemma Forall_repr_equiv h h' par cs :
  Forall (repr h par) cs ->
  (forall x, x ∈ flat_map ids cs -> node_equiv (h !! x) (h' !! x)) ->
  Forall (repr h' par) cs.
Proof.
  rewrite !Forall_forall. intros Hc Heq c Hin. eapply repr_equiv; [apply Hc, Hin|].
  intros x Hx. apply Heq, elem_of_flat_map. eauto.
Qed.

Lemma ctx_ok_equiv h h' par p hid hs :
  ctx_ok h par p hid hs ->
  (forall x, x ∈ ctx_ids p -> node_equiv (h !! x) (h' !! x)) ->
  ctx_ok h' par p hid hs.
Proof.
  revert hid hs. induction p as [|f p IH]; intros hid hs Hc Heq; [exact I|].
  destruct Hc as (Hn & Hs & Hp). split; [|split].
  - destruct (Heq (fr_id f) (in_ctx_head f p)) as [E|(l & l' & E1 & _)].
    + rewrite E. exact Hn.
    + rewrite Hn in E1. discriminate.
  - eapply Forall_repr_equiv; [exact Hs|]. intros x Hx. apply Heq, in_ctx_sib, Hx.
  - apply IH; [exact Hp|]. intros x Hx. apply Heq, in_ctx_tail, Hx.
Qed.

Lemma leaf_link_equiv h h' o :
  leaf_link h o -> (forall y, node_equiv (h !! y) (h' !! y)) -> leaf_link h' o.
Proof.
  destruct o as [y|]; [|auto]. intros [l Hl] Heq. destruct (Heq y) as [E|(l1 & l2 & E1 & E2 & _)].
  - exists l. rewrite E. exact Hl.
  - exists l2. exact E2.
Qed.

(** Relinking a neighbour leaf, as [insert_to_leaf] does after a split. *)
Lemma relink_spec (o : option nat) (upd : BTreeLeaf -> BTreeLeaf) s :
  leaf_link (heap s) o -> links_ok (heap s) -> fresh_ok s ->
  (forall l, values (upd l) = values l /\ leaf_parent (upd l) = leaf_parent l) ->
  (forall l, leaf_link (heap s) (next_leaf l) -> leaf_link (heap s) (previous_leaf l) ->
     leaf_link (heap s) (next_leaf (upd l)) /\ leaf_link (heap s) (previous_leaf (upd l))) ->
  exists h',
    (match o with
     | Some x => let* l := get_leaf x in put_node x (Leaf (upd l))
     | None => ret tt
     end) s = Some (tt, mkBTree h' (next_id s) (root s))
    /\ (forall y, node_equiv (heap s !! y) (h' !! y))
    /\ (forall y, o <> Some y -> h' !! y = heap s !! y)
    /\ links_ok h' /\ fresh_ok (mkBTree h' (next_id s) (root s)).
Proof.
  intros Hlk Hl Hf Hupd Hupl. destruct o as [x|].
  - destruct Hlk as [l Hx]. exists (<[x := Leaf (upd l)]> (heap s)).
    split; [step ltac:(apply get_leaf_ok, Hx); reflexivity|].
    destruct (Hupd l) as [E1 E2]. split; [|split; [|split]].
    + apply node_equiv_relink with (l := l); assumption.
    + intros y Hy. rewrite lookup_insert_ne; [reflexivity|]. intros ->. exact (Hy eq_refl).
    + destruct (Hl _ _ Hx) as [Hn Hp]. apply links_ok_insert; [exact Hl | reflexivity |].
      intros l' E. injection E as <-. exact (Hupl l Hn Hp).
    + eapply fresh_put with (s := s); exact Hx || exact Hf.
  - exists (heap s). split; [destruct s; reflexivity|]. split; [intros; apply node_equiv_refl|].
    split; [reflexivity|]. split; [exact Hl|]. destruct s; exact Hf.
Qed.

End Relink.

(** ** Inserting into a leaf: [insert_to_leaf] *)

Section LeafInsert.

(** A leaf in the hole of a non-empty context takes one more value; a
    full leaf is split and its middle value goes up to the parent. *)
Lemma itl_spec f p fuel lid vs v s :
  repr (heap s) (Some (fr_id f)) (TL lid vs) ->
  ctx_ok (heap s) None (f :: p) lid (length vs) ->
  root s = Some (rid (plug (TL lid vs) (f :: p))) ->
  shape_ok (TL lid vs) -> ctx_shape (f :: p) ->
  NoDup (ids (TL lid vs) ++ ctx_ids (f :: p)) ->
  links_ok (heap s) -> fresh_ok s ->
  (length (f :: p) <= fuel)%nat ->
  exists s' t, insert_to_leaf fuel lid (length (fr_left f)) v s = Some (tt, s')
    /\ tree_inv s' t /\ size t = S (size (plug (TL lid vs) (f :: p)))
    /\ elems t ≡ₚ v :: elems (plug (TL lid vs) (f :: p)).
Proof.
  destruct s as [h N r]; cbn [heap next_id root].
  intros (nx & pv & Hlid) Hc Hroot [Hlen Hsort] Hcs Hnd Hl Hf Hfu.
  pose proof Hnd as Hnd0. cbn [ids app] in Hnd. apply NoDup_cons in Hnd as [Hni HndC].
  assert (HltC : forall x, x ∈ ctx_ids (f :: p) -> (x < N)%nat).
  { intros x Hx. destruct (ctx_ids_in _ _ _ _ _ x Hc Hx) as [n Hn]. exact (Hf _ _ Hn). }
  assert (Hlidl : (lid < N)%nat) by exact (Hf _ _ Hlid).
  destruct (Hl _ _ Hlid) as [Hnx Hpv]; cbn [next_leaf previous_leaf] in Hnx, Hpv.
  unfold insert_to_leaf.
  step ltac:(apply get_leaf_ok, Hlid). step ltac:(apply put_node_ok).
  cbn [values leaf_parent next_leaf previous_leaf set_values heap next_id root].
  remember (sort_values (vs ++ [v])) as vals eqn:Ev.
  assert (Hvl : length vals = S (length vs)) by (subst vals; rewrite length_sort_values, length_app; simpl; lia).
  assert (Hvs : Sorted Z.le vals) by (subst vals; apply sort_values_sorted).
  assert (Hpv_el : elems (plug (TL lid vals) (f :: p)) ≡ₚ [v] ++ elems (plug (TL lid vs) (f :: p))).
  { apply elems_plug_perm. cbn [elems]. rewrite Ev, sort_values_perm. solve_Permutation. }
  set (h1 := <[lid := _]> h).
  assert (Hl1 : links_ok h1).
  { apply links_ok_insert; [exact Hl | reflexivity |]. intros l E. injection E as <-. split; assumption. }
  assert (Hf1 : fresh_ok (mkBTree h1 N r)) by (eapply fresh_put with (s := mkBTree h N r); [exact Hf|exact Hlid]).
  assert (Hag1 : forall x, x <> lid -> h1 !! x = h !! x) by (intros x Hx; apply lookup_insert_ne; congruence).
  destruct (decide (length vs = 1%nat)) as [E1|E1].
  - replace (length vals <=? MAX_KEYS)%nat with true by (rewrite Hvl, E1; reflexivity).
    step ltac:(apply lift_ok).
    assert (Hc1 : ctx_ok h1 None (f :: p) lid (length vs)).
    { eapply ctx_ok_agree; [exact Hc|]. intros x Hx. apply Hag1. intros ->. exact (Hni Hx). }
    destruct (upv_spec p f fuel lid (length vs) (mkBTree h1 N r) Hc1 HndC Hfu Hl1 Hf1)
      as (h' & Hrun & Hc' & Hag' & Hl' & Hf').
    cbn [heap next_id root] in *.
    exists (mkBTree h' N r), (plug (TL lid vals) (f :: p)). split; [exact Hrun|]. split.
    + apply tree_inv_plug; cbn [heap next_id root].
      * rewrite Hroot. f_equal. apply rid_plug. reflexivity.
      * cbn [repr hole_par]. exists nx, pv.
        rewrite Hag' by (intros Hin; apply Hni, map_fr_id_ctx_ids, Hin). apply lookup_insert_eq.
      * cbn [size rid]. rewrite Hvl. exact Hc'.
      * split; [lia|exact Hvs].
      * exact Hcs.
      * exact Hnd0.
      * exact Hl'.
      * exact Hf'.
    + split; [rewrite !size_plug; cbn [size]; lia | exact Hpv_el].
  - assert (E2 : length vs = 2%nat) by lia.
    destruct vals as [|v0 [|v1 [|v2 [|v3 rest]]]]; cbn [length] in Hvl; try lia.
    cbn [length MAX_KEYS Nat.leb].
    step ltac:(apply lift_ok). step ltac:(apply alloc_ok). cbn [heap next_id root].
    set (h2 := <[N := _]> h1).
    assert (HpvN : forall y, pv = Some y -> (y < N)%nat).
    { intros y ->. destruct Hpv as [l Hy]. exact (Hf _ _ Hy). }
    assert (HnxN : forall y, nx = Some y -> (y < N)%nat).
    { intros y ->. destruct Hnx as [l Hy]. exact (Hf _ _ Hy). }
    assert (HN1 : h1 !! N = None).
    { rewrite Hag1 by lia. destruct (h !! N) eqn:E; [|reflexivity]. apply Hf in E. cbn in E. lia. }
    assert (Hlk2 : forall o, leaf_link h o -> leaf_link h2 o).
    { intros o Ho. apply leaf_link_insert; [apply leaf_link_insert; [exact Ho|reflexivity]|reflexivity]. }
    assert (Hl2 : links_ok h2).
    { apply links_ok_insert; [exact Hl1 | reflexivity |]. intros l E. injection E as <-.
      split; [exact I|]. apply leaf_link_insert; [exact Hpv|reflexivity]. }
    assert (Hf2 : fresh_ok (mkBTree h2 (S N) r)) by exact (fresh_alloc (mkBTree h1 N r) _ r Hf1).
    destruct (relink_spec pv (fun l => set_next_leaf l (Some N)) (mkBTree h2 (S N) r))
      as (h3 & Erun3 & Heq3 & Hag3 & Hl3 & Hf3); cbn [heap next_id root] in *.
    { exact (Hlk2 _ Hpv). }
    { exact Hl2. }
    { exact Hf2. }
    { intros l. split; reflexivity. }
    { intros l _ Hp. split; [exists (mkLeaf [v0] (Some (fr_id f)) None pv); apply lookup_insert_eq | exact Hp]. }
    step ltac:(exact Erun3). step ltac:(apply lift_ok). step ltac:(apply alloc_ok).
    cbn [heap next_id root skipn].
    set (h4 := <[S N := _]> h3).
    assert (Hlk4 : forall o, leaf_link h o -> leaf_link h4 o).
    { intros o Ho. apply leaf_link_insert; [|intros l0 _; reflexivity].
      eapply leaf_link_equiv; [apply Hlk2, Ho|exact Heq3]. }
    assert (HN3 : leaf_link h3 (Some N)).
    { eapply leaf_link_equiv; [|exact Heq3]. exists (mkLeaf [v0] (Some (fr_id f)) None pv). apply lookup_insert_eq. }
    assert (Hl4 : links_ok h4).
    { apply links_ok_insert; [exact Hl3 | intros l0 _; reflexivity |]. intros l E. injection E as <-.
      split; [eapply leaf_link_equiv; [apply Hlk2, Hnx|exact Heq3] | exact HN3]. }
    assert (Hf4 : fresh_ok (mkBTree h4 (S (S N)) r)) by exact (fresh_alloc (mkBTree h3 (S N) r) _ r Hf3).
    destruct (relink_spec nx (fun l => set_previous_leaf l (Some (S N))) (mkBTree h4 (S (S N)) r))
      as (h5 & Erun5 & Heq5 & Hag5 & Hl5 & Hf5); cbn [heap next_id root] in *.
    { exact (Hlk4 _ Hnx). }
    { exact Hl4. }
    { exact Hf4. }
    { intros l. split; reflexivity. }
    { intros l Hn _. split; [exact Hn|]. exists (mkLeaf [v1; v2] (Some (fr_id f)) nx (Some N)). apply lookup_insert_eq. }
    step ltac:(exact Erun5).
    assert (H5N : h5 !! N = Some (Leaf (mkLeaf [v0] (Some (fr_id f)) None pv))).
    { rewrite Hag5 by (intros E; specialize (HnxN _ E); lia). unfold h4.
      rewrite lookup_insert_ne by lia. rewrite Hag3 by (intros E; specialize (HpvN _ E); lia).
      apply lookup_insert_eq. }
    assert (H5SN : h5 !! S N = Some (Leaf (mkLeaf [v1; v2] (Some (fr_id f)) nx (Some N)))).
    { rewrite Hag5 by (intros E; specialize (HnxN _ E); lia). apply lookup_insert_eq. }
    step ltac:(apply get_leaf_ok, H5N). step ltac:(apply put_node_ok). cbn [heap next_id root].
    step ltac:(apply lift_ok). step ltac:(apply lift_ok).
    set (h6 := <[N := _]> h5).
    assert (Heqv : forall x, x <> lid -> x <> N -> x <> S N -> node_equiv (h !! x) (h6 !! x)).
    { intros x H1 H2 H3. unfold h6. rewrite lookup_insert_ne by congruence.
      eapply node_equiv_trans; [|apply Heq5]. unfold h4. rewrite lookup_insert_ne by congruence.
      eapply node_equiv_trans; [|apply Heq3]. unfold h2. rewrite lookup_insert_ne by congruence.
      rewrite Hag1 by congruence. apply node_equiv_refl. }
    assert (Hc6 : ctx_ok h6 None (f :: p) lid (length vs)).
    { eapply ctx_ok_equiv; [exact Hc|]. intros x Hx. specialize (HltC _ Hx).
      apply Heqv; [intros ->; exact (Hni Hx)|lia|lia]. }
    assert (Hl6 : links_ok h6).
    { apply links_ok_insert; [exact Hl5 | intros l0 _; reflexivity |]. intros l E. injection E as <-.
      cbn [set_next_leaf next_leaf previous_leaf values leaf_parent]. split.
      - exact (ex_intro _ _ H5SN).
      - eapply leaf_link_equiv; [|exact Heq5]. apply Hlk4, Hpv. }
    assert (Hf6 : fresh_ok (mkBTree h6 (S (S N)) r))
      by exact (fresh_put (mkBTree h5 (S (S N)) r) N _ _ r Hf5 H5N).
    destruct (upv_spec p f fuel lid (length vs) (mkBTree h6 (S (S N)) r) Hc6 HndC Hfu Hl6 Hf6)
      as (h7 & Erun7 & Hc7 & Hag7 & Hl7 & Hf7); cbn [heap next_id root] in *.
    step ltac:(exact Erun7).
    pose proof Hc7 as (Hg7 & Hs7 & Hp7).
    step ltac:(apply get_subtree_ok, Hg7). cbn [children].
    step ltac:(apply lift_eq; rewrite <- (length_map rid (fr_left f)); apply replace_child_ok).
    step ltac:(apply put_node_ok). cbn [heap next_id root set_children children subtree_parent mid_keys values_number].
    set (cs' := fr_left f ++ TL N [v0] :: TL (S N) [v1; v2] :: fr_right f).
    set (h8 := <[fr_id f := _]> h7).
    pose proof Hcs as Hcs0. apply Forall_cons in Hcs as ((Hf1n & Hfk & Hfs & Hfsh) & Hcsp).
    assert (Hgp : (fr_id f < N)%nat) by exact (HltC _ (in_ctx_head f p)).
    pose proof HndC as HndC0. rewrite ctx_ids_cons in HndC. apply NoDup_cons in HndC as [Hgni HndC].
    rewrite elem_of_app in Hgni.
    assert (Hag8 : forall x, x <> fr_id f -> h8 !! x = h7 !! x) by (intros x Hx; apply lookup_insert_ne; congruence).
    assert (Hnf : forall x, (N <= x)%nat -> x ∉ map fr_id (f :: p)).
    { intros x Hx Hin. apply map_fr_id_ctx_ids, HltC in Hin. lia. }
    assert (Hsz : sizes cs' = (sizes (fr_left f) + S (length vs) + sizes (fr_right f))%nat).
    { unfold cs'. rewrite sizes_app, !sizes_cons. cbn [size length]. lia. }
    assert (Hperm : ids (TN (fr_id f) (fr_keys f) cs') ++ ctx_ids p ≡ₚ N :: S N :: ctx_ids (f :: p)).
    { unfold cs'. rewrite ids_TN, flat_map_app, ctx_ids_cons. cbn [flat_map ids]. solve_Permutation. }
    destruct (imk_spec p fuel (fr_id f) (fr_keys f) cs' v1 (mkBTree h8 (S (S N)) r))
      as (s' & t & Hrun & Hinv & Hsize & Hel); cbn [heap next_id root].
    + unfold h8. rewrite lookup_insert_eq. rewrite Hsz. unfold cs'. rewrite map_app. reflexivity.
    + unfold cs'. apply Forall_app in Hs7 as [HsL HsR]. apply Forall_app. split; [|constructor; [|constructor]].
      * eapply Forall_repr_agree; [exact HsL|]. intros x Hx. apply Hag8. intros ->. apply Hgni. left. apply elem_of_app. left. exact Hx.
      * exists (Some (S N)), pv. rewrite Hag8 by lia. rewrite Hag7 by (apply Hnf; lia).
        unfold h6. rewrite lookup_insert_eq. reflexivity.
      * exists nx, (Some N). rewrite Hag8 by lia. rewrite Hag7 by (apply Hnf; lia).
        unfold h6. rewrite lookup_insert_ne by lia. exact H5SN.
      * eapply Forall_repr_agree; [exact HsR|]. intros x Hx. apply Hag8. intros ->. apply Hgni. left.
        apply elem_of_app. right. exact Hx.
    + rewrite Hsz. eapply ctx_ok_agree; [exact Hp7|]. intros x Hx. apply Hag8. intros ->. apply Hgni. right. exact Hx.
    + rewrite Hroot. f_equal. apply (rid_plug _ _ p). reflexivity.
    + unfold cs'. rewrite length_app. cbn [length]. lia.
    + lia.
    + unfold cs'. apply Forall_app in Hfsh as [HshL HshR]. apply Forall_app. split; [exact HshL|].
      constructor; [|constructor; [|exact HshR]].
      * cbn. split; [lia|]. constructor; constructor.
      * cbn. split; [lia|]. apply Sorted_inv in Hvs as [Hvs _]. exact Hvs.
    + exact Hcsp.
    + rewrite Hperm. apply NoDup_cons. split.
      * intros Hin. apply elem_of_cons in Hin as [Hin|Hin]; [lia|]. specialize (HltC _ Hin). lia.
      * apply NoDup_cons. split; [|exact HndC0]. intros Hin. specialize (HltC _ Hin). lia.
    + exact (links_ok_put_subtree _ _ _ _ Hl7 Hg7).
    + exact (fresh_put (mkBTree h7 (S (S N)) r) (fr_id f) _ _ r Hf7 Hg7).
    + simpl in Hfu. lia.
    + exists s', t. split; [exact Hrun|]. split; [exact Hinv|].
      split; [rewrite Hsize, Hsz, size_plug, ctx_size_cons; cbn [size]; lia|].
      assert (Ecs : elems (plug (TN (fr_id f) (fr_keys f) cs') p) = elems (plug (TL lid [v0; v1; v2]) (f :: p))).
      { apply (elems_plug_eq _ _ p). unfold cs'. rewrite !elems_TN, !flat_map_app. reflexivity. }
      rewrite Hel, Ecs. exact Hpv_el.
Qed.

End LeafInsert.

(** ** Descending into a subtree: [insert_to_subtree] *)

Section Descent.

Lemma gcibv_bound st v :
  (1 <= length (mid_keys st) <= 2)%nat ->
  exists i, get_children_index_by_value st v = Some i /\ (i <= length (mid_keys st))%nat.
Proof.
  intros Hk. unfold get_children_index_by_value.
  destruct (mid_keys st) as [|k0 [|k1 [|k2 ks]]]; cbn [length] in Hk |- *; try lia.
  - eexists. split; [reflexivity|]. destruct (v <? k0); lia.
  - eexists. split; [reflexivity|]. destruct (v <? k0); [lia|]. destruct (_ && _); lia.
Qed.

Lemma ctx_ids_length p : (length p <= length (ctx_ids p))%nat.
Proof.
  induction p as [|f p IH]; [simpl; lia|]. rewrite ctx_ids_cons. cbn [length].
  rewrite length_app. lia.
Qed.

Lemma ctx_depth t p : (length p < length (ids (plug t p)))%nat.
Proof.
  rewrite (Permutation_length (ids_plug t p)), length_app.
  pose proof (ctx_ids_length p). destruct t; cbn [ids length]; lia.
Qed.

Lemma ids_down sid ks L c R p :
  ids c ++ ctx_ids (Frame sid ks L R :: p) ≡ₚ ids (TN sid ks (L ++ c :: R)) ++ ctx_ids p.
Proof.
  rewrite ctx_ids_cons, ids_TN, flat_map_app. cbn [flat_map fr_id fr_left fr_right]. solve_Permutation.
Qed.

Lemma ids_child_length sid ks L c R :
  (length (ids c) < length (ids (TN sid ks (L ++ c :: R))))%nat.
Proof. rewrite ids_TN, flat_map_app. cbn [flat_map length]. rewrite !length_app. lia. Qed.

(** One step down: the child [c] in the hole of a new frame. *)
Lemma down_frame h p sid ks L c R :
  repr h (hole_par None p) (TN sid ks (L ++ c :: R)) ->
  ctx_ok h None p sid (sizes (L ++ c :: R)) ->
  repr h (Some sid) c /\ ctx_ok h None (Frame sid ks L R :: p) (rid c) (size c).
Proof.
  intros Hr Hc. apply repr_TN in Hr as [Hn Hcs]. apply Forall_app in Hcs as [HL HcR].
  apply Forall_cons in HcR as [Hc1 HR]. split; [exact Hc1|].
  cbn [ctx_ok fr_id fr_left fr_right fr_keys]. rewrite sizes_app, sizes_cons in Hc.
  split; [|split].
  - rewrite Hn, map_app, sizes_app, sizes_cons. cbn [map].
    replace (sizes L + (size c + sizes R))%nat with (sizes L + size c + sizes R)%nat by lia. reflexivity.
  - apply Forall_app. auto.
  - replace (sizes L + size c + sizes R)%nat with (sizes L + (size c + sizes R))%nat by lia. exact Hc.
Qed.

Lemma down_shape p sid ks L c R :
  shape_ok (TN sid ks (L ++ c :: R)) -> ctx_shape p ->
  shape_ok c /\ ctx_shape (Frame sid ks L R :: p).
Proof.
  intros Hs Hp. apply shape_TN in Hs as (H1 & H2 & H3 & Hcs). rewrite length_app in H1, H2.
  cbn [length] in H1, H2. apply Forall_app in Hcs as [HL HcR].
  apply Forall_cons in HcR as [Hc HR]. split; [exact Hc|].
  constructor; [|exact Hp]. cbn [fr_left fr_right fr_keys].
  split; [lia|]. split; [lia|]. split; [exact H3|]. apply Forall_app. auto.
Qed.

(** The descent from an internal node, by induction on the depth bound. *)
Lemma its_spec depth : forall p sid ks cs fuel v s,
  repr (heap s) (hole_par None p) (TN sid ks cs) ->
  ctx_ok (heap s) None p sid (sizes cs) ->
  root s = Some (rid (plug (TN sid ks cs) p)) ->
  shape_ok (TN sid ks cs) -> ctx_shape p ->
  NoDup (ids (TN sid ks cs) ++ ctx_ids p) ->
  links_ok (heap s) -> fresh_ok s ->
  (length (ids (plug (TN sid ks cs) p)) <= fuel)%nat ->
  (length (ids (TN sid ks cs)) <= depth)%nat ->
  exists s' t, insert_to_subtree fuel depth sid v s = Some (tt, s')
    /\ tree_inv s' t /\ size t = S (size (plug (TN sid ks cs) p))
    /\ elems t ≡ₚ v :: elems (plug (TN sid ks cs) p).
Proof.
  induction depth as [|d IH]; intros p sid ks cs fuel v s Hr Hc Hroot Hs Hcs Hnd Hl Hf Hfu Hd.
  { rewrite ids_TN in Hd. cbn [length] in Hd. lia. }
  pose proof Hr as Hr0. apply repr_TN in Hr0 as [Hn _].
  pose proof Hs as Hs0. apply shape_TN in Hs0 as (Hs1 & Hs2 & _).
  cbn [insert_to_subtree].
  step ltac:(apply get_subtree_ok, Hn).
  destruct (gcibv_bound (mkSubTree (map rid cs) (hole_par None p) ks (sizes cs)) v) as (i & Hi & Hib).
  { cbn [mid_keys]. lia. }
  step ltac:(apply lift_eq, Hi). step ltac:(apply get_subtree_ok, Hn). cbn [children].
  cbn [mid_keys] in Hib.
  destruct (nth_error cs i) as [c|] eqn:Ec; [|apply nth_error_None in Ec; lia].
  destruct (nth_error_split cs i Ec) as (L & R & -> & <-).
  assert (Ei : nth_error (map rid (L ++ c :: R)) (length L) = Some (rid c))
    by (rewrite nth_error_map, Ec; reflexivity).
  step ltac:(apply lift_eq, Ei).
  destruct (down_frame _ _ _ _ _ _ _ Hr Hc) as [Hrc Hcc].
  destruct (down_shape _ _ _ _ _ _ Hs Hcs) as [Hsc Hcsc].
  assert (Hndc : NoDup (ids c ++ ctx_ids (Frame sid ks L R :: p))) by (rewrite ids_down; exact Hnd).
  pose proof (ctx_depth c (Frame sid ks L R :: p)) as Hdep.
  change (plug c (Frame sid ks L R :: p)) with (plug (TN sid ks (L ++ c :: R)) p) in Hdep.
  destruct c as [lid vs | cid cks ccs].
  - pose proof Hrc as (nx & pv & Hlid). step ltac:(apply get_node_ok, Hlid). cbn [is_leaf rid].
    apply (itl_spec (Frame sid ks L R) p fuel lid vs v s Hrc Hcc Hroot Hsc Hcsc Hndc Hl Hf).
    lia.
  - pose proof Hrc as Hrc0. apply repr_TN in Hrc0 as [Hcn _].
    step ltac:(apply get_node_ok, Hcn). cbn [is_leaf rid].
    apply (IH (Frame sid ks L R :: p) cid cks ccs fuel v s Hrc Hcc Hroot Hsc Hcsc Hndc Hl Hf Hfu).
    pose proof (ids_child_length sid ks L (TN cid cks ccs) R). lia.
Qed.

End Descent.

(** ** Inserting at the root: [insert_to_root_leaf], [insert] *)

Section TopInsert.

(** A root leaf takes one more value, or splits under a new root. *)
Lemma itrl_spec lid vs v s :
  root s = Some lid -> repr (heap s) None (TL lid vs) -> shape_ok (TL lid vs) ->
  links_ok (heap s) -> fresh_ok s ->
  exists s' t, insert_to_root_leaf v s = Some (tt, s') /\ tree_inv s' t /\ size t = S (length vs)
    /\ elems t ≡ₚ v :: vs.
Proof.
  destruct s as [h N r]; cbn [heap next_id root].
  intros Hroot (nx & pv & Hlid) [Hlen Hsort] Hl Hf.
  pose proof (Hf _ _ Hlid) as Hlidl. cbn [next_id] in Hlidl.
  destruct (Hl _ _ Hlid) as [Hnx Hpv]; cbn [next_leaf previous_leaf] in Hnx, Hpv.
  unfold insert_to_root_leaf.
  step ltac:(reflexivity). cbn [root]. step ltac:(apply lift_eq, Hroot).
  step ltac:(apply get_leaf_ok, Hlid). step ltac:(apply put_node_ok).
  cbn [values leaf_parent next_leaf previous_leaf set_values heap next_id root].
  remember (sort_values (vs ++ [v])) as vals eqn:Ev.
  assert (Hvl : length vals = S (length vs)) by (subst vals; rewrite length_sort_values, length_app; simpl; lia).
  assert (Hvs : Sorted Z.le vals) by (subst vals; apply sort_values_sorted).
  assert (Hvp : vals ≡ₚ v :: vs) by (rewrite Ev, sort_values_perm; solve_Permutation).
  set (h1 := <[lid := _]> h).
  assert (Hl1 : links_ok h1).
  { apply links_ok_insert; [exact Hl | reflexivity |]. intros l E. injection E as <-. split; assumption. }
  assert (Hf1 : fresh_ok (mkBTree h1 N r)) by (eapply fresh_put with (s := mkBTree h N r); [exact Hf|exact Hlid]).
  destruct (decide (length vs = 1%nat)) as [E1|E1].
  - replace (length vals <=? MAX_KEYS)%nat with true by (rewrite Hvl, E1; reflexivity).
    exists (mkBTree h1 N r), (TL lid vals). split; [reflexivity|]. split; [|split; [cbn [size]; exact Hvl | exact Hvp]].
    split; [exact Hroot|]. split; [exists nx, pv; apply lookup_insert_eq|].
    split; [split; [lia|exact Hvs]|]. split; [apply NoDup_singleton|]. split; assumption.
  - destruct vals as [|v0 [|v1 [|v2 [|v3 rest]]]]; cbn [length] in Hvl; try lia.
    cbn [length MAX_KEYS Nat.leb].
    step ltac:(apply lift_ok). step ltac:(apply alloc_ok). cbn [heap next_id root].
    step ltac:(apply lift_ok). step ltac:(apply alloc_ok). cbn [heap next_id root skipn].
    step ltac:(apply lift_ok).
    set (h2 := <[S N := _]> (<[N := _]> h1)).
    assert (H2N : h2 !! N = Some (Leaf (mkLeaf [v0] None None None))).
    { unfold h2. rewrite lookup_insert_ne by lia. apply lookup_insert_eq. }
    step ltac:(apply get_leaf_ok, H2N). step ltac:(apply put_node_ok). cbn [heap next_id root set_next_leaf values leaf_parent previous_leaf].
    set (h3 := <[N := _]> h2).
    assert (Hl2 : links_ok h2).
    { unfold h2. apply links_ok_insert; [apply links_ok_insert; [exact Hl1|reflexivity|] | reflexivity |].
      - intros l E. injection E as <-. split; exact I.
      - intros l E. injection E as <-. split; [exact I|]. exists (mkLeaf [v0] None None None).
        apply lookup_insert_eq. }
    assert (Hl3 : links_ok h3).
    { unfold h3. apply links_ok_insert; [exact Hl2 | reflexivity |]. intros l E. injection E as <-. split; [|exact I].
      exists (mkLeaf [v1; v2] None None (Some N)). apply lookup_insert_eq. }
    assert (Hf3 : fresh_ok (mkBTree h3 (S (S N)) r)).
    { intros x n Hx. cbn [heap next_id] in *. unfold h3, h2 in Hx.
      destruct (decide (x = N)) as [->|?]; [lia|]. destruct (decide (x = S N)) as [->|?]; [lia|].
      rewrite !lookup_insert_ne in Hx by congruence. specialize (Hf1 _ _ Hx). cbn [next_id] in Hf1. lia. }
    assert (Hr1 : repr h3 None (TL N [v0])).
    { exists (Some (S N)), None. apply lookup_insert_eq. }
    assert (Hr2 : repr h3 None (TL (S N) [v1; v2])).
    { exists None, (Some N). unfold h3. rewrite lookup_insert_ne by lia. apply lookup_insert_eq. }
    assert (Hnd : NoDup (ids (TL N [v0]) ++ ids (TL (S N) [v1; v2]))).
    { cbn. apply NoDup_cons. split; [|apply NoDup_singleton]. rewrite list_elem_of_singleton. lia. }
    destruct (new_root_spec _ _ _ _ v1 (mkBTree h3 (S (S N)) r) Hr1 Hr2 Hnd Hl3 Hf3)
      as (h' & Erun & Hr' & _ & Hl' & Hf'); cbn [heap next_id root rid] in *.
    step ltac:(exact Erun).
    exists (mkBTree h' (S (S (S N))) (Some (S (S N)))), (TN (S (S N)) [v1] [TL N [v0]; TL (S N) [v1; v2]]).
    split; [reflexivity|]. split; [|split; [cbn; lia | exact Hvp]].
    split; [reflexivity|]. split; [exact Hr'|]. split.
    + apply shape_TN. split; [cbn; lia|]. split; [reflexivity|]. split; [constructor; constructor|].
      constructor; [|constructor; [|constructor]].
      * split; [cbn; lia|]. constructor; constructor.
      * split; [cbn; lia|]. apply Sorted_inv in Hvs as [Hvs _]. exact Hvs.
    + split; [|split; [exact Hl'|exact Hf']].
      cbn. apply NoDup_cons. split.
      * rewrite !elem_of_cons, elem_of_nil. lia.
      * apply NoDup_cons. split; [|apply NoDup_singleton]. rewrite list_elem_of_singleton. lia.
Qed.

Lemma tree_inv_len s t : tree_inv s t -> len s = size t.
Proof.
  intros (Hroot & Hr & _). unfold len. rewrite Hroot. exact (repr_values_number _ _ _ Hr).
Qed.

(** One insertion keeps the invariant and adds one value. *)
Lemma insert_inv s v :
  state_inv s -> exists s', insert v s = Some (tt, s') /\ state_inv s' /\ len s' = S (len s).
Proof.
  intros [(Hroot & Hl & Hf) | (t & Ht)].
  - unfold insert. step ltac:(reflexivity). rewrite Hroot.
    step ltac:(apply alloc_ok).
    exists (mkBTree (<[next_id s := Leaf (mkLeaf [v] None None None)]> (heap s)) (S (next_id s)) (Some (next_id s))).
    split; [reflexivity|]. split.
    + right. exists (TL (next_id s) [v]). split; [reflexivity|]. split; [exists None, None; apply lookup_insert_eq|].
      split; [split; [cbn; lia|constructor; constructor]|]. split; [apply NoDup_singleton|]. split.
      * apply links_ok_insert; [exact Hl| |intros l E; injection E as <-; split; exact I].
        intros l0 Hx. rewrite (fresh_none _ Hf) in Hx. discriminate.
      * exact (fresh_alloc s _ _ Hf).
    + unfold len. rewrite Hroot. cbn [root heap]. unfold values_number_of. rewrite lookup_insert_eq. reflexivity.
  - pose proof Ht as (Hroot & Hr & Hs & Hnd & Hl & Hf). rewrite (tree_inv_len _ _ Ht).
    unfold insert. step ltac:(reflexivity). rewrite Hroot.
    destruct t as [lid vs | sid ks cs].
    + pose proof Hr as (nx & pv & Hlid). step ltac:(apply get_node_ok, Hlid). cbn [is_leaf].
      destruct (itrl_spec lid vs v s Hroot Hr Hs Hl Hf) as (s' & t' & Erun & Ht' & Hsz & _).
      exists s'. split; [exact Erun|]. split; [right; exists t'; exact Ht'|].
      rewrite (tree_inv_len _ _ Ht'). exact Hsz.
    + pose proof Hr as Hr0. apply repr_TN in Hr0 as [Hn _].
      step ltac:(apply get_node_ok, Hn). cbn [is_leaf].
      assert (Hb : (length (ids (TN sid ks cs)) <= next_id s)%nat).
      { apply NoDup_bound; [exact Hnd|]. intros x Hx. exact (repr_ids_fresh _ _ _ x Hf Hr Hx). }
      destruct (its_spec (insert_fuel s) [] sid ks cs (insert_fuel s) v s Hr I Hroot Hs (Forall_nil_2 _))
        as (s' & t' & Erun & Ht' & Hsz & _).
      { rewrite app_nil_r. exact Hnd. }
      { exact Hl. }
      { exact Hf. }
      { unfold insert_fuel. cbn [plug]. lia. }
      { unfold insert_fuel. lia. }
      exists s'. split; [exact Erun|]. split; [right; exists t'; exact Ht'|].
      rewrite (tree_inv_len _ _ Ht'). exact Hsz.
Qed.

End TopInsert.

(** ** Building through the API: [extend], [from_iter] *)

Section Building.

(** [extend] inserts each element in turn. *)
Lemma extend_inv xs : forall s, state_inv s ->
  exists s', extend s xs = Some s' /\ state_inv s' /\ len s' = (len s + length xs)%nat.
Proof.
  induction xs as [|x xs IH]; intros s Hs.
  - exists s. split; [reflexivity|]. split; [exact Hs|]. cbn [length]. lia.
  - destruct (insert_inv s x Hs) as (s1 & E1 & Hs1 & Hlen1). cbn [extend]. rewrite E1.
    destruct (IH s1 Hs1) as (s' & E' & Hs' & Hlen'). exists s'. split; [exact E'|].
    split; [exact Hs'|]. cbn [length]. lia.
Qed.

Lemma state_inv_new : state_inv btree_new.
Proof. left. split; [reflexivity|]. split; intros x l Hx; discriminate. Qed.

Lemma from_iter_inv xs :
  exists s, from_iter xs = Some s /\ state_inv s /\ len s = length xs.
Proof.
  destruct (extend_inv xs btree_new state_inv_new) as (s & E & Hs & Hlen).
  exists s. split; [exact E|]. split; [exact Hs|]. rewrite Hlen. reflexivity.
Qed.

Lemma extend_app s xs ys :
  extend s (xs ++ ys) = match extend s xs with Some s' => extend s' ys | None => None end.
Proof.
  revert s. induction xs as [|x xs IH]; intros s; [reflexivity|]. cbn [app extend].
  destruct (insert x s) as [[[] s1]|]; [apply IH|reflexivity].
Qed.

Lemma reachable_inv s : reachable s -> state_inv s.
Proof.
  intros [xs E]. destruct (from_iter_inv xs) as (s' & E' & Hs' & _). rewrite E in E'.
  injection E' as <-. exact Hs'.
Qed.

Lemma reachable_insert s v s' : reachable s -> insert v s = Some (tt, s') -> reachable s'.
Proof.
  intros [xs E] Hi. exists (xs ++ [v]). unfold from_iter in *. rewrite extend_app, E.
  cbn [extend]. rewrite Hi. reflexivity.
Qed.

Lemma state_inv_btree_invariants s : state_inv s -> btree_invariants s.
Proof.
  intros [(Hroot & _) | (t & Hroot & Hr & Hs & _)]; [left; exact Hroot|].
  right. exists t. auto.
Qed.

End Building.

(** ** Insertion: totality, counting, invariants *)

(** C5: [insert] succeeds on every tree built through the public API, for
    every value, and adds exactly one to [len]; the state it returns is
    again built through the API.  Hence [from_iter xs] succeeds and its
    [len] is the number of insertions, [length xs]. *)
Theorem c5_insert_total_counts :
  (forall xs, exists s, from_iter xs = Some s /\ len s = length xs)
  /\ (forall s v, reachable s ->
        exists s', insert v s = Some (tt, s') /\ len s' = S (len s) /\ reachable s').
Proof.
  split.
  - intros xs. destruct (from_iter_inv xs) as (s & E & _ & Hlen). exists s. auto.
  - intros s v Hr. destruct (insert_inv s v (reachable_inv s Hr)) as (s' & E & _ & Hlen).
    exists s'. split; [exact E|]. split; [exact Hlen|]. exact (reachable_insert s v s' Hr E).
Qed.

(** C8: every tree built through the public API satisfies the invariants:
    each leaf holds 1 or 2 sorted values, each internal node has 2 or 3
    children and one sorted key fewer, and each cached count is the sum of
    its children's counts ([repr] with [shape_ok]).  Insertion keeps the
    state among those built through the API; the read operations
    ([len], [get], [find], the cursors) do not change the tree. *)
Theorem c8_invariants_hold :
  (forall xs, exists s, from_iter xs = Some s /\ btree_invariants s)
  /\ (forall s, reachable s -> btree_invariants s)
  /\ (forall s v s', reachable s -> insert v s = Some (tt, s') ->
        reachable s' /\ btree_invariants s').
Proof.
  split; [|split].
  - intros xs. destruct (from_iter_inv xs) as (s & E & Hs & _). exists s.
    split; [exact E|]. apply state_inv_btree_invariants, Hs.
  - intros s Hr. apply state_inv_btree_invariants, reachable_inv, Hr.
  - intros s v s' Hr Hi. pose proof (reachable_insert s v s' Hr Hi) as Hr'.
    split; [exact Hr'|]. apply state_inv_btree_invariants, reachable_inv, Hr'.
Qed.

(** ** Contents: rank access, ends, cursors, search *)

Section Contents.

Lemma insert_elems s l v :
  state_elems s l ->
  exists s' l', insert v s = Some (tt, s') /\ state_elems s' l' /\ l' ≡ₚ v :: l.
Proof.
  intros [(Hroot & Hl & Hf & ->) | (t & Ht & <-)].
  - unfold insert. step ltac:(reflexivity). rewrite Hroot.
    step ltac:(apply alloc_ok).
    exists (mkBTree (<[next_id s := Leaf (mkLeaf [v] None None None)]> (heap s)) (S (next_id s)) (Some (next_id s))), [v].
    split; [reflexivity|]. split; [|reflexivity].
    right. exists (TL (next_id s) [v]). split; [|reflexivity].
    split; [reflexivity|]. split; [exists None, None; apply lookup_insert_eq|].
    split; [split; [cbn; lia|constructor; constructor]|]. split; [apply NoDup_singleton|]. split.
    + apply links_ok_insert; [exact Hl| |intros l E; injection E as <-; split; exact I].
      intros l0 Hx. rewrite (fresh_none _ Hf) in Hx. discriminate.
    + exact (fresh_alloc s _ _ Hf).
  - pose proof Ht as (Hroot & Hr & Hs & Hnd & Hl & Hf).
    unfold insert. step ltac:(reflexivity). rewrite Hroot.
    destruct t as [lid vs | sid ks cs].
    + pose proof Hr as (nx & pv & Hlid). step ltac:(apply get_node_ok, Hlid). cbn [is_leaf].
      destruct (itrl_spec lid vs v s Hroot Hr Hs Hl Hf) as (s' & t' & Erun & Ht' & _ & Hel).
      exists s', (elems t'). split; [exact Erun|]. split; [right; exists t'; auto|]. exact Hel.
    + pose proof Hr as Hr0. apply repr_TN in Hr0 as [Hn _].
      step ltac:(apply get_node_ok, Hn). cbn [is_leaf].
      assert (Hb : (length (ids (TN sid ks cs)) <= next_id s)%nat).
      { apply NoDup_bound; [exact Hnd|]. intros x Hx. exact (repr_ids_fresh _ _ _ x Hf Hr Hx). }
      destruct (its_spec (insert_fuel s) [] sid ks cs (insert_fuel s) v s Hr I Hroot Hs (Forall_nil_2 _))
        as (s' & t' & Erun & Ht' & _ & Hel).
      { rewrite app_nil_r. exact Hnd. }
      { exact Hl. }
      { exact Hf. }
      { unfold insert_fuel. cbn [plug]. lia. }
      { unfold insert_fuel. lia. }
      exists s', (elems t'). split; [exact Erun|]. split; [right; exists t'; auto|]. exact Hel.
Qed.

Lemma extend_elems xs : forall s l, state_elems s l ->
  exists s' l', extend s xs = Some s' /\ state_elems s' l' /\ l' ≡ₚ xs ++ l.
Proof.
  induction xs as [|x xs IH]; intros s l Hs.
  - exists s, l. auto.
  - destruct (insert_elems s l x Hs) as (s1 & l1 & E1 & Hs1 & P1). cbn [extend]. rewrite E1.
    destruct (IH s1 l1 Hs1) as (s' & l' & E' & Hs' & P'). exists s', l'. split; [exact E'|].
    split; [exact Hs'|]. rewrite P', P1. solve_Permutation.
Qed.

Lemma from_iter_elems xs :
  exists s l, from_iter xs = Some s /\ state_elems s l /\ l ≡ₚ xs.
Proof.
  assert (H0 : state_elems btree_new []).
  { left. split; [reflexivity|]. split; [intros x l Hx; discriminate|]. split; [intros x n Hx; discriminate|reflexivity]. }
  destruct (extend_elems xs btree_new [] H0) as (s & l & E & Hs & P).
  exists s, l. rewrite app_nil_r in P. auto.
Qed.

Lemma skip_children_spec h par cs i :
  Forall (repr h par) cs -> (i < sizes cs)%nat ->
  exists L c R j, cs = L ++ c :: R /\ skip_children h (map rid cs) i = Some (rid c, j)
    /\ (j < size c)%nat /\ nth_error (flat_map elems cs) i = nth_error (elems c) j.
Proof.
  revert i. induction cs as [|c cs IH]; intros i Hr Hi; [cbn in Hi; lia|].
  apply Forall_cons in Hr as [Hc Hcs]. rewrite sizes_cons in Hi.
  cbn [map skip_children flat_map]. rewrite (repr_values_number _ _ _ Hc).
  destruct (Nat.ltb_spec i (size c)) as [Hlt|Hge].
  - exists [], c, cs, i. split; [reflexivity|]. split; [reflexivity|]. split; [exact Hlt|].
    apply nth_error_app1. rewrite <- size_elems. exact Hlt.
  - destruct (IH (i - size c)%nat Hcs ltac:(lia)) as (L & c' & R & j & -> & E & Hj & En).
    exists (c :: L), c', R, j. split; [reflexivity|]. split; [exact E|]. split; [exact Hj|].
    rewrite nth_error_app2 by (rewrite <- size_elems; lia). rewrite <- size_elems. exact En.
Qed.

Lemma node_get_spec h t : forall par fuel i,
  repr h par t -> (length (ids t) <= fuel)%nat -> (i < size t)%nat ->
  node_get fuel h (rid t) i = nth_error (elems t) i.
Proof.
  induction t as [id vs | id ks cs IH] using tr_ind'; intros par fuel i Hr Hf Hi.
  - destruct Hr as (nx & pv & Hn). destruct fuel as [|f]; [cbn in Hf; lia|].
    cbn [node_get rid]. rewrite Hn. reflexivity.
  - apply repr_TN in Hr as [Hn Hcs].
    assert (Hlen : (0 < length (ids (TN id ks cs)))%nat) by (rewrite ids_TN; cbn; lia).
    destruct fuel as [|f]; [lia|]. cbn [node_get rid]. rewrite Hn. cbn [children].
    rewrite size_TN in Hi.
    destruct (skip_children_spec _ _ _ _ Hcs Hi) as (L & c & R & j & Ecs & E & Hj & En).
    rewrite E, elems_TN, En.
    assert (Hin : c ∈ cs) by (rewrite Ecs; apply elem_of_app; right; left).
    rewrite Forall_forall in IH, Hcs.
    apply (IH c Hin (Some id) f j (Hcs c Hin)); [|exact Hj].
    pose proof (ids_child_length id ks L c R). rewrite <- Ecs in H. lia.
Qed.

Lemma tree_get s t i : tree_inv s t -> get s i = Some (nth_error (elems t) i).
Proof.
  intros Ht. pose proof Ht as (Hroot & Hr & Hs & Hnd & Hl & Hf).
  unfold get. rewrite (tree_inv_len _ _ Ht).
  destruct (Nat.leb_spec (size t) i) as [Hge|Hlt].
  - rewrite size_elems in Hge. rewrite (proj2 (nth_error_None _ _) Hge). reflexivity.
  - rewrite Hroot.
    assert (Hb : (length (ids t) <= next_id s)%nat).
    { apply NoDup_bound; [exact Hnd|]. intros x Hx. exact (repr_ids_fresh _ _ _ x Hf Hr Hx). }
    rewrite (node_get_spec _ t None (insert_fuel s) i Hr) by (unfold insert_fuel; lia).
    rewrite size_elems in Hlt. destruct (nth_error (elems t) i) eqn:E; [reflexivity|].
    apply nth_error_None in E. lia.
Qed.

Lemma state_get s l i : state_elems s l -> get s i = Some (nth_error l i).
Proof.
  intros [(Hroot & _ & _ & ->) | (t & Ht & <-)]; [|apply tree_get, Ht].
  unfold get, len. rewrite Hroot. destruct i; reflexivity.
Qed.

Lemma first_leaf_spec h t : forall par fuel,
  repr h par t -> shape_ok t -> (length (ids t) <= fuel)%nat ->
  exists l lf rest, first_leaf fuel h (rid t) = Some l /\ leaf_at h l = Some lf
    /\ values lf <> [] /\ elems t = values lf ++ rest.
Proof.
  induction t as [id vs | id ks cs IH] using tr_ind'; intros par fuel Hr Hs Hf.
  - destruct Hr as (nx & pv & Hn). destruct fuel as [|f]; [cbn in Hf; lia|].
    exists id, (mkLeaf vs par nx pv), []. cbn [first_leaf rid]. rewrite Hn.
    unfold leaf_at. rewrite Hn. cbn [values elems]. split; [reflexivity|]. split; [reflexivity|].
    destruct Hs as [Hlen _]. split; [intros ->; cbn in Hlen; lia|]. rewrite app_nil_r. reflexivity.
  - apply repr_TN in Hr as [Hn Hcs]. apply shape_TN in Hs as (Hlc & _ & _ & Hsc).
    destruct cs as [|c cs]; [cbn in Hlc; lia|].
    assert (Hlen : (length (ids c) < length (ids (TN id ks ([] ++ c :: cs))))%nat) by apply ids_child_length.
    destruct fuel as [|f]; [cbn in Hf; lia|]. cbn [first_leaf rid]. rewrite Hn. cbn [children map].
    apply Forall_cons in IH as [IHc _]. apply Forall_cons in Hcs as [Hc _]. apply Forall_cons in Hsc as [Hsc _].
    destruct (IHc (Some id) f Hc Hsc ltac:(cbn [app] in Hlen; lia)) as (l & lf & rest & E & El & Hne & Ee).
    exists l, lf, (rest ++ flat_map elems cs). split; [exact E|]. split; [exact El|]. split; [exact Hne|].
    rewrite elems_TN. cbn [flat_map]. rewrite Ee, app_assoc. reflexivity.
Qed.

Lemma last_leaf_spec h t : forall par fuel,
  repr h par t -> shape_ok t -> (length (ids t) <= fuel)%nat ->
  exists l lf pre, last_leaf fuel h (rid t) = Some l /\ leaf_at h l = Some lf
    /\ values lf <> [] /\ elems t = pre ++ values lf.
Proof.
  induction t as [id vs | id ks cs IH] using tr_ind'; intros par fuel Hr Hs Hf.
  - destruct Hr as (nx & pv & Hn). destruct fuel as [|f]; [cbn in Hf; lia|].
    exists id, (mkLeaf vs par nx pv), []. cbn [last_leaf rid]. rewrite Hn.
    unfold leaf_at. rewrite Hn. cbn [values elems]. split; [reflexivity|]. split; [reflexivity|].
    destruct Hs as [Hlen _]. split; [intros ->; cbn in Hlen; lia|]. reflexivity.
  - apply repr_TN in Hr as [Hn Hcs]. apply shape_TN in Hs as (Hlc & _ & _ & Hsc).
    destruct (exists_last (l := cs)) as (L & c & ->); [intros ->; cbn in Hlc; lia|].
    assert (Hlen : (length (ids c) < length (ids (TN id ks (L ++ c :: []))))%nat) by apply ids_child_length.
    destruct fuel as [|f]; [cbn in Hf; lia|]. cbn [last_leaf rid]. rewrite Hn. cbn [children].
    rewrite map_app. cbn [map]. rewrite last_snoc.
    rewrite Forall_forall in IH, Hcs, Hsc.
    assert (Hin : c ∈ L ++ [c]) by (apply elem_of_app; right; left).
    destruct (IH c Hin (Some id) f (Hcs c Hin) (Hsc c Hin) ltac:(lia)) as (l & lf & pre & E & El & Hne & Ee).
    exists l, lf, (flat_map elems L ++ pre). split; [exact E|]. split; [exact El|]. split; [exact Hne|].
    rewrite elems_TN, flat_map_app. cbn [flat_map]. rewrite Ee, app_nil_r, app_assoc. reflexivity.
Qed.

Lemma tree_fuel s t : tree_inv s t -> (length (ids t) <= insert_fuel s)%nat.
Proof.
  intros (Hroot & Hr & Hs & Hnd & Hl & Hf). unfold insert_fuel.
  enough (length (ids t) <= next_id s)%nat by lia.
  apply NoDup_bound; [exact Hnd|]. intros x Hx. exact (repr_ids_fresh _ _ _ x Hf Hr Hx).
Qed.

Lemma state_first s l : state_elems s l -> btree_first s = Some (head l).
Proof.
  intros [(Hroot & _ & _ & ->) | (t & Ht & <-)]; unfold btree_first.
  - rewrite Hroot. reflexivity.
  - pose proof (tree_fuel _ _ Ht) as Hb. destruct Ht as (Hroot & Hr & Hs & _).
    rewrite Hroot. unfold node_first.
    destruct (first_leaf_spec _ _ _ _ Hr Hs Hb) as (l & lf & rest & E & El & Hne & ->).
    rewrite E, El. destruct (values lf); [congruence|reflexivity].
Qed.

Lemma state_last s l : state_elems s l -> btree_last s = Some (last l).
Proof.
  intros [(Hroot & _ & _ & ->) | (t & Ht & <-)]; unfold btree_last.
  - rewrite Hroot. reflexivity.
  - pose proof (tree_fuel _ _ Ht) as Hb. destruct Ht as (Hroot & Hr & Hs & _).
    rewrite Hroot. unfold node_last.
    destruct (last_leaf_spec _ _ _ _ Hr Hs Hb) as (l & lf & pre & E & El & Hne & ->).
    rewrite E, El. destruct (exists_last Hne) as (a & x & ->).
    rewrite app_assoc, !last_snoc. reflexivity.
Qed.

Lemma state_iter_first s l :
  state_elems s l -> exists it it', iter s = Some it /\ next (heap s) it = Some (head l, it').
Proof.
  intros [(Hroot & _ & _ & ->) | (t & Ht & <-)]; unfold iter.
  - rewrite Hroot. exists iter_default, iter_default. split; reflexivity.
  - pose proof (tree_fuel _ _ Ht) as Hb. destruct Ht as (Hroot & Hr & Hs & _).
    rewrite Hroot.
    destruct (first_leaf_spec _ _ _ _ Hr Hs Hb) as (l & lf & rest & E & El & Hne & ->).
    rewrite E. exists (mkIter (Some l) 0).
    unfold next. cbn [cur_leaf cur_ind]. rewrite El.
    destruct (values lf) as [|x vs]; [congruence|]. cbn [nth_error head app].
    destruct (1 <? length (x :: vs))%nat; eexists; split; reflexivity.
Qed.

Lemma node_find_spec h t v : forall par fuel,
  repr h par t -> shape_ok t -> (length (ids t) <= fuel)%nat ->
  exists l lf pre post, node_find fuel h (rid t) v = Some l /\ leaf_at h l = Some lf
    /\ elems t = pre ++ values lf ++ post.
Proof.
  induction t as [id vs | id ks cs IH] using tr_ind'; intros par fuel Hr Hs Hf.
  - destruct Hr as (nx & pv & Hn). destruct fuel as [|f]; [cbn in Hf; lia|].
    exists id, (mkLeaf vs par nx pv), [], []. cbn [node_find rid]. rewrite Hn.
    unfold leaf_at. rewrite Hn. cbn [values elems]. split; [reflexivity|]. split; [reflexivity|].
    rewrite app_nil_r. reflexivity.
  - apply repr_TN in Hr as [Hn Hcs]. apply shape_TN in Hs as (Hlc & Hlk & _ & Hsc).
    assert (Hlen : (0 < length (ids (TN id ks cs)))%nat) by (rewrite ids_TN; cbn; lia).
    destruct fuel as [|f]; [lia|]. cbn [node_find rid]. rewrite Hn.
    destruct (gcibv_bound (mkSubTree (map rid cs) par ks (sizes cs)) v) as (i & Ei & Hi);
      cbn [mid_keys] in *; [lia|]. rewrite Ei. cbn [children].
    destruct (nth_error cs i) as [c|] eqn:Ec; [|apply nth_error_None in Ec; lia].
    rewrite (map_nth_error rid _ _ Ec).
    destruct (nth_error_split _ _ Ec) as (L & R & Ecs & _).
    pose proof (ids_child_length id ks L c R) as Hcl. rewrite <- Ecs in Hcl.
    assert (Hin : c ∈ cs) by (rewrite Ecs; apply elem_of_app; right; left).
    rewrite Forall_forall in IH, Hcs, Hsc.
    destruct (IH c Hin (Some id) f (Hcs c Hin) (Hsc c Hin) ltac:(lia)) as (l & lf & pre & post & E & El & Ee).
    exists l, lf, (flat_map elems L ++ pre), (post ++ flat_map elems R).
    split; [exact E|]. split; [exact El|].
    rewrite elems_TN, Ecs, flat_map_app. cbn [flat_map]. rewrite Ee. rewrite !app_assoc. reflexivity.
Qed.

Lemma position_some {A} (f : A -> bool) l i :
  position f l = Some i -> exists x, nth_error l i = Some x /\ f x = true.
Proof.
  revert i. induction l as [|a l IH]; intros i E; [discriminate|]. cbn [position] in E.
  destruct (f a) eqn:Ea.
  - injection E as <-. exists a. auto.
  - destruct (position f l) as [j|] eqn:Ej; [|discriminate]. injection E as <-.
    destruct (IH j eq_refl) as (x & Ex & Fx). exists x. auto.
Qed.

Lemma state_find s l v :
  state_elems s l -> exists it, find s v = Some it /\
    (it = iter_default \/ exists x it', next (heap s) it = Some (Some x, it') /\ v <= x /\ x ∈ l).
Proof.
  intros [(Hroot & _ & _ & ->) | (t & Ht & <-)]; unfold find.
  - rewrite Hroot. exists iter_default. auto.
  - pose proof (tree_fuel _ _ Ht) as Hb. destruct Ht as (Hroot & Hr & Hs & _).
    rewrite Hroot.
    destruct (node_find_spec _ _ v _ _ Hr Hs Hb) as (l & lf & pre & post & E & El & Ee).
    rewrite E, El. destruct (position (fun x => v <=? x) (values lf)) as [i|] eqn:Ep.
    + eexists. split; [reflexivity|]. right.
      destruct (position_some _ _ _ Ep) as (x & Ex & Fx). exists x.
      unfold next. cbn [cur_leaf cur_ind]. rewrite El, Ex.
      assert (Hx : v <= x /\ x ∈ pre ++ values lf ++ post).
      { split; [apply Z.leb_le, Fx|].
        apply elem_of_app. right. apply elem_of_app. left.
        apply list_elem_of_In. exact (nth_error_In _ _ Ex). }
      rewrite Ee. destruct (S i <? length (values lf))%nat; eexists; (split; [reflexivity|exact Hx]).
    + exists iter_default. auto.
Qed.

Lemma skip_children_oob h par cs i :
  Forall (repr h par) cs -> (sizes cs <= i)%nat -> skip_children h (map rid cs) i = None.
Proof.
  revert i. induction cs as [|c cs IH]; intros i Hr Hi; [reflexivity|].
  apply Forall_cons in Hr as [Hc Hcs]. rewrite sizes_cons in Hi.
  cbn [map skip_children]. rewrite (repr_values_number _ _ _ Hc).
  destruct (Nat.ltb_spec i (size c)); [lia|]. apply IH; [exact Hcs|lia].
Qed.

Lemma node_get_oob h t par fuel i :
  repr h par t -> (size t <= i)%nat -> node_get fuel h (rid t) i = None.
Proof.
  intros Hr Hi. destruct fuel as [|f]; [reflexivity|]. destruct t as [id vs | id ks cs].
  - destruct Hr as (nx & pv & Hn). cbn [node_get rid]. rewrite Hn. cbn [values].
    apply nth_error_None. cbn in Hi. exact Hi.
  - apply repr_TN in Hr as [Hn Hcs]. cbn [node_get rid]. rewrite Hn. cbn [children].
    rewrite size_TN in Hi. rewrite (skip_children_oob _ _ _ _ Hcs Hi). reflexivity.
Qed.

Lemma state_get_unchecked s l i : state_elems s l -> get_unchecked s i = nth_error l i.
Proof.
  intros [(Hroot & _ & _ & ->) | (t & Ht & <-)]; unfold get_unchecked.
  - rewrite Hroot. destruct i; reflexivity.
  - pose proof (tree_fuel _ _ Ht) as Hb. destruct Ht as (Hroot & Hr & _).
    rewrite Hroot. destruct (Nat.ltb_spec i (size t)).
    + exact (node_get_spec _ _ _ _ _ Hr Hb H).
    + rewrite (node_get_oob _ _ _ _ _ Hr H). symmetry. apply nth_error_None.
      rewrite <- size_elems. exact H.
Qed.

Lemma state_len s l : state_elems s l -> len s = length l.
Proof.
  intros [(Hroot & _ & _ & ->) | (t & Ht & <-)].
  - unfold len. rewrite Hroot. reflexivity.
  - rewrite (tree_inv_len _ _ Ht). apply size_elems.
Qed.

Lemma last_nth_error (l : list Z) : last l = nth_error l (length l - 1).
Proof.
  induction l as [|a l IH]; [reflexivity|]. destruct l as [|b l]; [reflexivity|].
  rewrite last_cons_cons, IH. cbn [length]. replace (S (S (length l)) - 1)%nat with (S (length l)) by lia.
  replace (S (length l) - 1)%nat with (length l) by lia. reflexivity.
Qed.

End Contents.

(** ** Reading a tree built through the API *)

(** X1: the contents are kept.  The tree built from [xs] stores a
    permutation [l] of [xs] ([len] is [length xs]), and [get i] answers
    [nth_error l i] for every index: the [i]-th stored value below [len],
    and [None] (no panic) from [len] on. *)
Theorem x_from_iter_get xs :
  exists s l, from_iter xs = Some s /\ l ≡ₚ xs /\ len s = length xs
    /\ forall i, get s i = Some (nth_error l i).
Proof.
  destruct (from_iter_elems xs) as (s & l & E & Hs & P). exists s, l.
  split; [exact E|]. split; [exact P|]. split.
  - rewrite (state_len _ _ Hs). apply Permutation_length, P.
  - intros i. apply state_get, Hs.
Qed.

(** X2: on a tree built from [xs], [get_unchecked i] panics exactly when
    [len <= i] (the leaf index or the [skip_while] runs off the end, and
    the empty tree has no root to unwrap); otherwise it returns what
    [get i] returns. *)
Theorem x_get_unchecked xs :
  exists s, from_iter xs = Some s /\ forall i,
    (get_unchecked s i = None <-> (len s <= i)%nat)
    /\ (forall x, get_unchecked s i = Some x <-> get s i = Some (Some x)).
Proof.
  destruct (from_iter_elems xs) as (s & l & E & Hs & _). exists s. split; [exact E|].
  intros i. rewrite (state_get_unchecked _ _ _ Hs), (state_get _ _ _ Hs), (state_len _ _ Hs).
  split; [apply nth_error_None|]. intros x. split; [intros ->; reflexivity|congruence].
Qed.

(** X3: [is_empty] holds of the tree built from [xs] exactly when [xs] is
    empty, and [is_not_empty] exactly when it is not. *)
Theorem x_is_empty xs :
  exists s, from_iter xs = Some s /\ (is_empty s = true <-> xs = [])
    /\ (is_not_empty s = true <-> xs <> []).
Proof.
  destruct (from_iter_elems xs) as (s & l & E & Hs & P). exists s. split; [exact E|].
  unfold is_not_empty, is_empty. rewrite (state_len _ _ Hs), (Permutation_length P).
  destruct xs; cbn; split; try easy; congruence.
Qed.

(** X4: on a tree built from [xs], [first] and [last] never panic, and
    they agree with rank access: [first] is [get 0] and [last] is
    [get (len - 1)] ([None] on the empty tree). *)
Theorem x_first_last_get xs :
  exists s, from_iter xs = Some s
    /\ (exists o, btree_first s = Some o /\ get s 0 = Some o)
    /\ (exists o, btree_last s = Some o /\ get s (len s - 1) = Some o).
Proof.
  destruct (from_iter_elems xs) as (s & l & E & Hs & _). exists s. split; [exact E|].
  rewrite (state_first _ _ Hs), (state_last _ _ Hs), !(state_get _ _ _ Hs), (state_len _ _ Hs).
  split; [exists (head l); split; [reflexivity|destruct l; reflexivity]|].
  exists (last l). split; [reflexivity|]. rewrite last_nth_error. reflexivity.
Qed.

(** X5: on a tree built from [xs], [iter] never panics and the first item
    its cursor yields is [first]. *)
Theorem x_iter_first xs :
  exists s it o it', from_iter xs = Some s /\ iter s = Some it
    /\ next (heap s) it = Some (o, it') /\ btree_first s = Some o.
Proof.
  destruct (from_iter_elems xs) as (s & l & E & Hs & _).
  destruct (state_iter_first _ _ Hs) as (it & it' & Ei & En).
  exists s, it, (head l), it'. split; [exact E|]. split; [exact Ei|]. split; [exact En|].
  apply state_first, Hs.
Qed.

(** X6: on a tree built from [xs], [find v] never panics; it returns the
    exhausted cursor, or a cursor whose next item is a value [x] of [xs]
    with [v <= x] (and [next] does not panic there). *)
Theorem x_find xs v :
  exists s it, from_iter xs = Some s /\ find s v = Some it
    /\ (it = iter_default \/ exists x it', next (heap s) it = Some (Some x, it') /\ v <= x /\ x ∈ xs).
Proof.
  destruct (from_iter_elems xs) as (s & l & E & Hs & P).
  destruct (state_find _ _ v Hs) as (it & Ef & Hit). exists s, it.
  split; [exact E|]. split; [exact Ef|].
  destruct Hit as [->|(x & it' & En & Hv & Hx)]; [left; reflexivity|].
  right. exists x, it'. split; [exact En|]. split; [exact Hv|]. rewrite <- P. exact Hx.
Qed.

(** X7: inserting [v] into a tree built from [xs] succeeds, adds one to
    [len], makes [v] reachable through [get] at some index, and keeps every
    value [get] reached before reachable at some index. *)
Theorem x_insert_get xs v :
  exists s s', from_iter xs = Some s /\ insert v s = Some (tt, s')
    /\ len s' = S (len s)
    /\ (exists i, get s' i = Some (Some v))
    /\ (forall i x, get s i = Some (Some x) -> exists j, get s' j = Some (Some x)).
Proof.
  destruct (from_iter_elems xs) as (s & l & E & Hs & _).
  destruct (insert_elems s l v Hs) as (s' & l' & Ei & Hs' & P).
  exists s, s'. split; [exact E|]. split; [exact Ei|].
  split; [rewrite (state_len _ _ Hs), (state_len _ _ Hs'), P; reflexivity|].
  assert (Hin : forall x, x ∈ l' -> exists j, get s' j = Some (Some x)).
  { intros x Hx. apply list_elem_of_In, In_nth_error in Hx as (j & Ej).
    exists j. rewrite (state_get _ _ _ Hs'), Ej. reflexivity. }
  split.
  - apply Hin. rewrite P. left.
  - intros i x Eg. rewrite (state_get _ _ _ Hs) in Eg. injection Eg as Eg.
    apply Hin. rewrite P. right. apply list_elem_of_In. exact (nth_error_In _ _ Eg).
Qed.

(** X8: [extend] composes: extending the tree built from [xs] with [ys]
    succeeds and gives the tree built from [xs ++ ys], whose [len] is the
    old [len] plus [length ys]. *)
Theorem x_extend_compose xs ys :
  exists s s', from_iter xs = Some s /\ extend s ys = Some s'
    /\ from_iter (xs ++ ys) = Some s' /\ len s' = (len s + length ys)%nat.
Proof.
  destruct (from_iter_elems xs) as (s & l & E & Hs & P).
  destruct (extend_elems ys s l Hs) as (s' & l' & E' & Hs' & P').
  exists s, s'. split; [exact E|]. split; [exact E'|]. split.
  - unfold from_iter. rewrite extend_app. fold (from_iter xs). rewrite E. exact E'.
  - rewrite (state_len _ _ Hs), (state_len _ _ Hs'), P', length_app. lia.
Qed.

(** ** Cursors: one position, two directions *)

(** C7 (corrected).  A cursor is a single position, not two ends: [next]
    and [next_back] both return the value under it; inside a leaf [next]
    moves it one step forward and [next_back] one step back.  [next_back]
    needs the leaf's previous link to name a leaf (else it panics on the
    unwrap), and that holds in every tree built through the API.  So on the
    tree built from [1; 2] the steps [next], [next_back], [next_back] yield
    [1], [2] (the cursor is then at offset 1) and [1] (at offset 0) again. *)
Theorem c7_single_position :
  (forall h l leaf i x,
     leaf_at h l = Some leaf -> nth_error (values leaf) i = Some x ->
     (exists it', next h (mkIter (Some l) i) = Some (Some x, it')
        /\ ((S i < length (values leaf))%nat -> it' = mkIter (Some l) (S i)))
     /\ (leaf_link h (previous_leaf leaf) ->
         exists it', next_back h (mkIter (Some l) i) = Some (Some x, it')
           /\ ((0 < i)%nat -> it' = mkIter (Some l) (i - 1))))
  /\ (forall s l leaf, reachable s -> leaf_at (heap s) l = Some leaf ->
        leaf_link (heap s) (previous_leaf leaf)).
Proof.
  split.
  - intros h l leaf i x Hl Hx. split.
    + unfold next. cbn [cur_leaf cur_ind]. rewrite Hl, Hx.
      destruct (Nat.ltb_spec (S i) (length (values leaf))) as [Hlt|Hge].
      * eexists. split; [reflexivity|]. intros _. reflexivity.
      * eexists. split; [reflexivity|]. intros Hlt. lia.
    + intros Hp. unfold next_back. cbn [cur_leaf cur_ind]. rewrite Hl, Hx.
      destruct (Nat.ltb_spec 0 i) as [Hlt|Hge].
      * eexists. split; [reflexivity|]. intros _. reflexivity.
      * destruct (previous_leaf leaf) as [p|] eqn:Ep.
        -- destruct Hp as (pl & Hpl). unfold leaf_at at 1. rewrite Hpl.
           eexists. split; [reflexivity|]. intros Hlt. lia.
        -- eexists. split; [reflexivity|]. intros Hlt. lia.
  - intros s l leaf Hr Hl. unfold leaf_at in Hl.
    destruct (heap s !! l) as [[lf|st]|] eqn:En; try discriminate. injection Hl as ->.
    assert (Hlk : links_ok (heap s)).
    { destruct (reachable_inv s Hr) as [(_ & Hlk & _)|(t & _ & _ & _ & _ & Hlk & _)]; exact Hlk. }
    exact (proj2 (Hlk l leaf En)).
Qed.

Lemma c7_single_position_witness :
  exists it', next_back (<[0%nat := Leaf (mkLeaf [1; 2] None None None)]> ∅) (mkIter (Some 0%nat) 0)
    = Some (Some 1, it').
Proof.
  destruct (proj1 c7_single_position (<[0%nat := Leaf (mkLeaf [1; 2] None None None)]> ∅)
              0%nat (mkLeaf [1; 2] None None None) 0%nat 1) as [_ Hb];
    [vm_compute; reflexivity | vm_compute; reflexivity |].
  destruct (Hb I) as (it' & E & _). exists it'. exact E.
Defined.
